(** * Ollama gateway: the outbound request pipeline

    A shallow embedding of the request pipeline of the gateway's
    [OllamaService]: token estimation, context budgeting of prompts and
    message lists (the JavaScript service), the retry loop, the streaming
    response reassembly and the chat completion entry point (the TypeScript
    service), followed by the properties proved about them.

    JavaScript strings are sequences of UTF-16 code units; [length],
    [substring], [indexOf] and [includes] count in code units, and so does the
    model.  The numbers the budgeting code computes are integers or [NaN]; the
    products with 0.7, 0.8, 1.3 and 0.25 are modelled by exact integer
    arithmetic, which agrees with the IEEE doubles of the source at the
    magnitudes of a string length: where the exact value is an integer the
    double is that integer, elsewhere it is at least 0.05 away from one.
    Logging is left out; it reads values and changes none. *)

From Stdlib Require Import ZArith NArith List Lia Bool Ascii String QArith
  DecimalString.
Import ListNotations.

Set Warnings "-register-all".

Local Open Scope Z_scope.

(* ================================================================== *)
(** ** JavaScript strings and numbers *)

Module Js.

(** A UTF-16 code unit. *)
Definition char16 := N.

Definition jsstring := list char16.

(** The code units of an ASCII literal. *)
Definition lit (s : string) : jsstring :=
  map N_of_ascii (list_ascii_of_string s).

Definition NL : char16 := 10%N.
Definition DQUOTE : char16 := 34%N.

(** A literal in which the apostrophe stands for the double quote
    character and the vertical bar for a line feed. *)
Definition qlit (s : string) : jsstring :=
  map (fun c => if N.eqb c 39 then DQUOTE else if N.eqb c 124 then NL else c)
      (lit s).

Definition length (s : jsstring) : Z := Z.of_nat (List.length s).

Fixpoint eqb (a b : jsstring) : bool :=
  match a, b with
  | [], [] => true
  | x :: a', y :: b' => N.eqb x y && eqb a' b'
  | _, _ => false
  end.

(** The numbers of the budgeting code: an integer or [NaN]. *)
Inductive number := Num (z : Z) | NaN.

Definition sub (a b : number) : number :=
  match a, b with Num x, Num y => Num (x - y) | _, _ => NaN end.

Definition mul (a b : number) : number :=
  match a, b with Num x, Num y => Num (x * y) | _, _ => NaN end.

(** [Math.floor(a * (p/q))] for a decimal constant [p/q]. *)
Definition floor_times (a : number) (p q : Z) : number :=
  match a with Num x => Num (x * p / q) | NaN => NaN end.

(** [a <= b]: false as soon as one side is [NaN]. *)
Definition leb (a b : number) : bool :=
  match a, b with Num x, Num y => x <=? y | _, _ => false end.

(** Argument conversion of [substring]: [NaN] counts as 0 and the value is
    clamped to the string. *)
Definition clamp (len : Z) (x : number) : Z :=
  match x with
  | NaN => 0
  | Num z => Z.min (Z.max z 0) len
  end.

(** [s.substring(a, b)]: both ends clamped, swapped when [a > b]. *)
Definition substring (s : jsstring) (a b : number) : jsstring :=
  let a' := clamp (length s) a in
  let b' := clamp (length s) b in
  let lo := Z.min a' b' in
  let hi := Z.max a' b' in
  firstn (Z.to_nat (hi - lo)) (skipn (Z.to_nat lo) s).

(** [s.substring(a)]: up to the end of the string. *)
Definition substring_from (s : jsstring) (a : number) : jsstring :=
  substring s a (Num (length s)).

Fixpoint starts_with (p s : jsstring) : bool :=
  match p, s with
  | [], _ => true
  | x :: p', y :: s' => N.eqb x y && starts_with p' s'
  | _ :: _, [] => false
  end.

(** [s.includes(p)]. *)
Fixpoint includes (s p : jsstring) : bool :=
  starts_with p s ||
  match s with
  | [] => false
  | _ :: s' => includes s' p
  end.

(** The code units matched by [\s] in a regular expression. *)
Definition is_space (c : char16) : bool :=
  ((9 <=? c) && (c <=? 13) || (c =? 32) || (c =? 160) || (c =? 5760)
   || (8192 <=? c) && (c <=? 8202) || (c =? 8232) || (c =? 8233)
   || (c =? 8239) || (c =? 8287) || (c =? 12288) || (c =? 65279))%N.

(** [s.split(/\s+/)]: [in_sep] holds while a run of white space is being
    skipped, [cur] is the piece being read, reversed. *)
Fixpoint split_ws (in_sep : bool) (cur : jsstring) (s : jsstring)
  : list jsstring :=
  match s with
  | [] => [rev cur]
  | c :: r =>
      if is_space c
      then if in_sep then split_ws true [] r
           else rev cur :: split_ws true [] r
      else split_ws false (c :: cur) r
  end.

Definition split_spaces (s : jsstring) : list jsstring :=
  split_ws false [] s.

(** [a.slice(-n)]: the last [n] elements. *)
Definition slice_last {A} (n : nat) (l : list A) : list A :=
  skipn (List.length l - n) l.

End Js.

Import Js.

(* ================================================================== *)
(** ** The JavaScript service: token estimate and context budgeting *)

Module Budget.

Inductive Role := system | user | assistant.

Record Message := mkMessage {
  role : Role;
  content : jsstring;
  name : option jsstring
}.

Definition is_system (m : Message) : bool :=
  match role m with system => true | _ => false end.

(** [countTokens] on a string. *)
Definition countTokens (input : jsstring) : Z :=
  let words :=
    Z.of_nat (List.length
                (filter (fun word => 0 <? length word) (split_spaces input))) in
  let chars := length input in
  (* Math.ceil(words * 1.3 + chars * 0.25) *)
  (26 * words + 5 * chars + 19) / 20.

(** [countTokens] on an array of messages. *)
Definition countTokens_messages (input : list Message) : Z :=
  fold_left (fun total message => total + countTokens (content message))
            input 0.

(** The own properties of the [contextLimits] object literal. *)
Definition contextLimits : list (jsstring * Z) :=
  [ (lit "llama2", 4096); (lit "llama3", 8192); (lit "gemma", 8192);
    (lit "gemma2", 8192); (lit "gemma3", 8192); (lit "mistral", 8192);
    (lit "codellama", 16384); (lit "phi", 2048); (lit "default", 4096) ].

(** What an object literal inherits from [Object.prototype]: every one of
    these names reads as a function (or, for [__proto__], as the prototype
    object itself). *)
Definition object_prototype_keys : list jsstring :=
  map lit
    [ "constructor"; "hasOwnProperty"; "isPrototypeOf";
      "propertyIsEnumerable"; "toLocaleString"; "toString"; "valueOf";
      "__proto__"; "__defineGetter__"; "__defineSetter__";
      "__lookupGetter__"; "__lookupSetter__" ]%string.

Inductive property :=
| Own (z : Z)        (* a number of the literal *)
| Inherited          (* a function or object of the prototype: truthy *)
| Undefined.

Fixpoint own_property (tbl : list (jsstring * Z)) (key : jsstring)
  : option Z :=
  match tbl with
  | [] => None
  | (k, v) :: tbl' => if Js.eqb key k then Some v else own_property tbl' key
  end.

(** [contextLimits[key]]. *)
Definition get (key : jsstring) : property :=
  match own_property contextLimits key with
  | Some v => Own v
  | None =>
      if existsb (Js.eqb key) object_prototype_keys then Inherited
      else Undefined
  end.

(** [contextLimits[model] || contextLimits.default], as the number it is
    when multiplied: a function or object gives [NaN]. *)
Definition contextLimit (model : jsstring) : number :=
  match get model with
  | Own v => if v =? 0 then Num 4096 else Num v
  | Inherited => NaN
  | Undefined => Num 4096
  end.

(** [Math.floor(contextLimit * 0.7)], the share of the context kept for the
    prompt or the messages. *)
Definition maxTokens (model : jsstring) : number :=
  floor_times (contextLimit model) 7 10.

Definition truncated_notice : jsstring :=
  NL :: lit "[... truncated ...]" ++ [NL].

Definition truncateText (text : jsstring) (maxChars : number) : jsstring :=
  if leb (Num (length text)) maxChars then text
  else
    let startChars := floor_times maxChars 8 10 in
    let endChars := sub (sub maxChars startChars) (Num 50) in
    substring text (Num 0) startChars
      ++ truncated_notice
      ++ substring_from text (sub (Num (length text)) endChars).

Definition prompt_marker : jsstring :=
  [NL; NL] ++ lit "[... content truncated due to length ...]" ++ [NL; NL].

Definition processLongPrompt (prompt model : jsstring) : jsstring :=
  let maxPromptTokens := maxTokens model in
  let currentTokens := countTokens prompt in
  if leb (Num currentTokens) maxPromptTokens then prompt
  else
    let maxChars := mul maxPromptTokens (Num 4) in
    let truncationPoint := floor_times maxChars 8 10 in
    let endPoint := sub (sub maxChars truncationPoint) (Num 100) in
    if leb (Num (length prompt)) maxChars then prompt
    else
      substring prompt (Num 0) truncationPoint
        ++ prompt_marker
        ++ substring_from prompt (sub (Num (length prompt)) endPoint).

Definition message_notice : jsstring :=
  NL :: lit "[... message truncated due to length ...]".

(** The message pushed when [message] does not fit [remainingTokens]. *)
Definition truncated_message (message : Message) (remainingTokens : number)
  : Message :=
  {| role := role message;
     content :=
       truncateText (content message) (floor_times remainingTokens 4 1)
         ++ message_notice;
     name := name message |}.

(** The [for (const message of recentMessages)] loop: the messages it
    pushes, in the order it pushes them. *)
Fixpoint push_recent (recentMessages : list Message)
         (remainingTokens : number) : list Message :=
  match recentMessages with
  | [] => []
  | message :: rest =>
      let messageTokens := countTokens (content message) in
      if leb (Num messageTokens) remainingTokens
      then message
             :: push_recent rest (sub remainingTokens (Num messageTokens))
      else [truncated_message message remainingTokens]   (* break *)
  end.

Definition processLongMessages (messages : list Message) (model : jsstring)
  : list Message :=
  let maxMessageTokens := maxTokens model in
  let currentTokens := countTokens_messages messages in
  if leb (Num currentTokens) maxMessageTokens then messages
  else
    let systemMessages := filter is_system messages in
    let nonSystemMessages := filter (fun msg => negb (is_system msg)) messages in
    let recentMessages := slice_last 3 nonSystemMessages in
    let remainingTokens :=
      sub maxMessageTokens (Num (countTokens_messages systemMessages)) in
    systemMessages ++ push_recent recentMessages remainingTokens.

End Budget.

Import Budget.

(* ================================================================== *)
(** ** JSON texts, as [JSON.parse] reads them *)

Module Json.

Inductive value :=
| JNull
| JBool (b : bool)
| JNumber (lexeme : jsstring)
| JString (s : jsstring)
| JArray (elements : list value)
| JObject (members : list (jsstring * value)).

Local Open Scope N_scope.

Definition is_ws (c : char16) : bool :=
  (c =? 32) || (c =? 9) || (c =? 10) || (c =? 13).

Definition is_digit (c : char16) : bool := (48 <=? c) && (c <=? 57).

Fixpoint skip_ws (s : jsstring) : jsstring :=
  match s with
  | c :: r => if is_ws c then skip_ws r else s
  | [] => []
  end.

Definition hex_digit (c : char16) : option N :=
  if is_digit c then Some (c - 48)
  else if (97 <=? c) && (c <=? 102) then Some (c - 87)
  else if (65 <=? c) && (c <=? 70) then Some (c - 55)
  else None.

Definition hex4 (a b c d : char16) : option char16 :=
  match hex_digit a, hex_digit b, hex_digit c, hex_digit d with
  | Some x, Some y, Some z, Some w => Some (((x * 16 + y) * 16 + z) * 16 + w)
  | _, _, _, _ => None
  end.

(** The character an escape letter stands for. *)
Definition escape (e : char16) : option char16 :=
  if (e =? 34) || (e =? 92) || (e =? 47) then Some e
  else if e =? 98 then Some 8
  else if e =? 102 then Some 12
  else if e =? 110 then Some 10
  else if e =? 114 then Some 13
  else if e =? 116 then Some 9
  else None.

(** The characters of a string after its opening quote, up to the closing
    one; [acc] is what was read, reversed. *)
Fixpoint parse_chars (s acc : jsstring) : option (jsstring * jsstring) :=
  match s with
  | [] => None
  | c :: r =>
      if c =? 34 then Some (rev acc, r)
      else if c =? 92 then
        match r with
        | [] => None
        | e :: r' =>
            if e =? 117 then
              match r' with
              | h1 :: h2 :: h3 :: h4 :: r'' =>
                  match hex4 h1 h2 h3 h4 with
                  | Some u => parse_chars r'' (u :: acc)
                  | None => None
                  end
              | _ => None
              end
            else
              match escape e with
              | Some x => parse_chars r' (x :: acc)
              | None => None
              end
        end
      else if c <? 32 then None
      else parse_chars r (c :: acc)
  end.

Fixpoint take_digits (s : jsstring) : jsstring * jsstring :=
  match s with
  | c :: r =>
      if is_digit c then let (d, t) := take_digits r in (c :: d, t)
      else ([], s)
  | [] => ([], [])
  end.

(** A mark ([.] or an exponent letter with its sign) followed by at least
    one digit, when the mark is there. *)
Definition optional_part (mark : jsstring -> option (jsstring * jsstring))
           (s : jsstring) : option (jsstring * jsstring) :=
  match mark s with
  | None => Some ([], s)
  | Some (m, r) =>
      match take_digits r with
      | ([], _) => None
      | (d, t) => Some (m ++ d, t)
      end
  end.

Definition dot_mark (s : jsstring) : option (jsstring * jsstring) :=
  match s with
  | c :: r => if c =? 46 then Some ([c], r) else None
  | [] => None
  end.

Definition exp_mark (s : jsstring) : option (jsstring * jsstring) :=
  match s with
  | c :: r =>
      if (c =? 101) || (c =? 69) then
        match r with
        | g :: r' =>
            if (g =? 43) || (g =? 45) then Some ([c; g], r')
            else Some ([c], r)
        | [] => Some ([c], r)
        end
      else None
  | [] => None
  end.

(** A number: its lexeme and what follows it. *)
Definition parse_number (s : jsstring) : option (jsstring * jsstring) :=
  let (sign, s1) :=
    match s with
    | c :: r => if c =? 45 then ([c], r) else ([], s)
    | [] => ([], s)
    end in
  match take_digits s1 with
  | ([], _) => None
  | (d :: ds, s2) =>
      if (d =? 48) && negb (match ds with [] => true | _ => false end)
      then None
      else
        match optional_part dot_mark s2 with
        | None => None
        | Some (frac, s3) =>
            match optional_part exp_mark s3 with
            | None => None
            | Some (ex, s4) => Some (sign ++ d :: ds ++ frac ++ ex, s4)
            end
        end
  end.

Definition keyword (word : string) (v : value) (s : jsstring)
  : option (value * jsstring) :=
  if starts_with (lit word) s
  then Some (v, skipn (List.length (lit word)) s)
  else None.

Fixpoint parse_value (fuel : nat) (s : jsstring) {struct fuel}
  : option (value * jsstring) :=
  match fuel with
  | O => None
  | S fuel' =>
      match skip_ws s with
      | [] => None
      | c :: r =>
          if c =? 123 then
            match skip_ws r with
            | c' :: r' =>
                if c' =? 125 then Some (JObject [], r')
                else parse_members fuel' r []
            | [] => None
            end
          else if c =? 91 then
            match skip_ws r with
            | c' :: r' =>
                if c' =? 93 then Some (JArray [], r')
                else parse_elements fuel' r []
            | [] => None
            end
          else if c =? 34 then
            match parse_chars r [] with
            | Some (str, t) => Some (JString str, t)
            | None => None
            end
          else if c =? 116 then keyword "true" (JBool true) (c :: r)
          else if c =? 102 then keyword "false" (JBool false) (c :: r)
          else if c =? 110 then keyword "null" JNull (c :: r)
          else
            match parse_number (c :: r) with
            | Some (lexeme, t) => Some (JNumber lexeme, t)
            | None => None
            end
      end
  end

with parse_elements (fuel : nat) (s : jsstring) (acc : list value)
     {struct fuel} : option (value * jsstring) :=
  match fuel with
  | O => None
  | S fuel' =>
      match parse_value fuel' s with
      | None => None
      | Some (v, t) =>
          match skip_ws t with
          | c :: r =>
              if c =? 44 then parse_elements fuel' r (v :: acc)
              else if c =? 93 then Some (JArray (rev (v :: acc)), r)
              else None
          | [] => None
          end
      end
  end

with parse_members (fuel : nat) (s : jsstring)
     (acc : list (jsstring * value)) {struct fuel}
     : option (value * jsstring) :=
  match fuel with
  | O => None
  | S fuel' =>
      match skip_ws s with
      | c :: r =>
          if c =? 34 then
            match parse_chars r [] with
            | None => None
            | Some (key, t) =>
                match skip_ws t with
                | c2 :: r2 =>
                    if c2 =? 58 then
                      match parse_value fuel' r2 with
                      | None => None
                      | Some (v, t2) =>
                          match skip_ws t2 with
                          | c3 :: r3 =>
                              if c3 =? 44
                              then parse_members fuel' r3 ((key, v) :: acc)
                              else if c3 =? 125
                              then Some (JObject (rev ((key, v) :: acc)), r3)
                              else None
                          | [] => None
                          end
                      end
                    else None
                | [] => None
                end
            end
          else None
      | [] => None
      end
  end.

(** [JSON.parse(text)]; [None] when it throws a [SyntaxError].  The parser
    calls itself at most twice for a character it reads, hence the fuel. *)
Definition parse (text : jsstring) : option value :=
  match parse_value (2 * List.length text + 2) text with
  | Some (v, t) =>
      match skip_ws t with
      | [] => Some v
      | _ :: _ => None
      end
  | None => None
  end.

(** The own property [key] of a parsed object: the last member of that
    name. *)
Fixpoint member (key : jsstring) (members : list (jsstring * value))
  : option value :=
  match members with
  | [] => None
  | (k, v) :: rest =>
      match member key rest with
      | Some v' => Some v'
      | None => if Js.eqb key k then Some v else None
      end
  end.

End Json.

(* ================================================================== *)
(** ** Errors *)

Module Errors.

(** The error a failed request rejects with: its [code], its [message],
    the status and the [data.error] of the response when the server
    answered, and whether the request left at all. *)
Record RequestError := mkRequestError {
  code : option jsstring;
  message : jsstring;
  response : option (Z * option jsstring);
  request : bool
}.

(** What a call can throw. *)
Inductive Thrown :=
| Raw (e : RequestError)
| PlainError (msg : jsstring)                       (* new Error(msg) *)
| SetupError (cause : Thrown)      (* new Error(`Request setup error: ...`) *)
| AppError (msg : jsstring) (statusCode : Z) (errorCode : jsstring)
           (correlationId : jsstring)
| TimeoutError (msg : jsstring) (correlationId : jsstring) (timeout : Q)
| ExternalServiceError (msg : jsstring) (correlationId : jsstring)
                       (service : jsstring) (originalError : Thrown)
| SyntaxError
| TypeError
| ThrownUndefined.

(** [error instanceof AppError]. *)
Definition instanceof_AppError (e : Thrown) : bool :=
  match e with
  | AppError _ _ _ _ | TimeoutError _ _ _ | ExternalServiceError _ _ _ _ =>
      true
  | _ => false
  end.

(** The [statusCode] and [code] the constructors of the error classes
    pass to [AppError]. *)
Definition statusCode_of (e : Thrown) : option Z :=
  match e with
  | AppError _ s _ _ => Some s
  | TimeoutError _ _ _ => Some 408%Z
  | ExternalServiceError _ _ _ _ => Some 502%Z
  | _ => None
  end.

Definition code_of (e : Thrown) : option jsstring :=
  match e with
  | Raw r => code r
  | AppError _ _ c _ => Some c
  | TimeoutError _ _ _ => Some (lit "TIMEOUT_ERROR")
  | ExternalServiceError _ _ _ _ => Some (lit "EXTERNAL_SERVICE_ERROR")
  | _ => None
  end.

Definition correlationId_of (e : Thrown) : option jsstring :=
  match e with
  | AppError _ _ _ c | TimeoutError _ c _ | ExternalServiceError _ c _ _ =>
      Some c
  | _ => None
  end.

Inductive outcome (A : Type) :=
| Returned (a : A)
| Threw (e : Thrown)
| Outside.      (* a response whose content is not a string: its
                   conversion to a string or its [length] is not modelled *)

Arguments Returned {A} a.
Arguments Threw {A} e.
Arguments Outside {A}.

End Errors.

Import Errors.

(* ================================================================== *)
(** ** The TypeScript service: retrying transport *)

Module Transport.

(** [this.timeout] and [this.maxRetries], as [parseInt] read them. *)
Record Config := mkConfig {
  timeout : Z;
  maxRetries : Z
}.

Record RequestOptions := mkOptions {
  opt_timeout : option Q
}.

(** The calls a request function has received and the delays slept
    between them. *)
Record World := mkWorld {
  calls : nat;
  sleeps : list Z
}.

Definition start : World := {| calls := 0; sleeps := [] |}.

Definition invoked (w : World) : World :=
  {| calls := S (calls w); sleeps := sleeps w |}.

Definition slept (delay : Z) (w : World) : World :=
  {| calls := calls w; sleeps := sleeps w ++ [delay] |}.

(** [options.timeout || fallback]. *)
Definition timeout_or (options : RequestOptions) (fallback : Q) : Q :=
  match opt_timeout options with
  | Some t => if Qeq_bool t 0 then fallback else t
  | None => fallback
  end.

Definition decimal (z : Z) : jsstring :=
  lit (NilZero.string_of_int (Z.to_int z)).

Definition isTimeoutError (error : RequestError) : bool :=
  match code error with
  | Some c => Js.eqb c (lit "ECONNABORTED")
  | None => false
  end
  || includes (message error) (lit "timeout")
  || includes (message error) (lit "ETIMEDOUT").

(** [Math.min(1000 * Math.pow(2, attempt - 1), 10000)]. *)
Definition backoff (attempt : Z) : Z :=
  Z.min (1000 * 2 ^ (attempt - 1)) 10000.

(** The delays slept after the failed attempts [from], ...,
    [from + n - 1]. *)
Definition delays (from n : nat) : list Z :=
  map (fun i => backoff (Z.of_nat i)) (seq from n).

(** [this.timeout * Math.pow(1.5, attempt - 1)], as the rational it
    denotes.  The code computes the power and the product in double
    precision, which give this rational while
    [max 1 |base| * 3 ^ (attempt - 1) < 2 ^ 53] (for the default 30000 ms,
    every attempt up to the 25th); beyond that the double is a rounding of
    it. *)
Definition progressiveTimeout (base attempt : Z) : Q :=
  Qred (inject_Z base * Qpower (3 # 2) (attempt - 1)).

Section Retry.

Context {R : Type}.
Variable cfg : Config.
(** The request function: what its [n]-th call (from 0) answers to the
    options it is given. *)
Variable requestFn : nat -> RequestOptions -> RequestError + R.
Variable options : RequestOptions.
Variable correlationId : jsstring.

Definition timeout_text : jsstring :=
  lit "Request timeout after " ++ decimal (maxRetries cfg)
    ++ lit " attempts. The Ollama server took too long to respond.".

(** The [for (attempt = 1; attempt <= maxRetries; attempt++)] loop, at
    [attempt] and with the [remaining = maxRetries - attempt + 1] iterations
    its condition still allows; with none left the loop is over and
    [lastError] is thrown. *)
Fixpoint attempts (remaining : nat) (attempt : Z)
         (lastError : option RequestError) (w : World)
  : outcome R * World :=
  match remaining with
  | O =>
      (* throw lastError! *)
      (Threw (match lastError with
              | Some e => Raw e
              | None => ThrownUndefined
              end), w)
  | S remaining' =>
      let requestOptions :=
        {| opt_timeout :=
             Some (timeout_or options
                     (progressiveTimeout (timeout cfg) attempt)) |} in
      match requestFn (calls w) requestOptions with
      | inr response => (Returned response, invoked w)
      | inl error =>
          let w' := invoked w in
          if attempt =? maxRetries cfg then
            if isTimeoutError error
            then (Threw (TimeoutError timeout_text correlationId
                           (timeout_or options (inject_Z (timeout cfg)))),
                  w')
            else (Threw (Raw error), w')        (* break *)
          else
            attempts remaining' (attempt + 1) (Some error)
                     (slept (backoff attempt) w')
      end
  end.

Definition retryRequest (w : World) : outcome R * World :=
  attempts (Z.to_nat (maxRetries cfg)) 1 None w.

End Retry.

End Transport.

Import Transport.

(* ================================================================== *)
(** ** The TypeScript service: streaming response reassembly *)

Module Stream.

(** [s.indexOf(c)] for a single code unit; -1 when it is absent. *)
Fixpoint indexOf (s : jsstring) (c : char16) : Z :=
  match s with
  | [] => -1
  | x :: r =>
      if N.eqb x c then 0
      else let i := indexOf r c in if i =? -1 then -1 else i + 1
  end.

Inductive line_effect :=
| Append (fragment : jsstring)
| Skip
| Fails (e : Thrown)
| Unmodelled.    (* the content is a number, an array or an object, which
                    [+=] would first convert to a string *)

(** What one complete line does to [fullContent]:
    [parsed = JSON.parse(jsonStr)], then
    [if (parsed.message && parsed.message.content)
       fullContent += parsed.message.content]. *)
Definition line_fragment (jsonStr : jsstring) : line_effect :=
  match Json.parse jsonStr with
  | None => Fails SyntaxError
  | Some Json.JNull => Fails TypeError
  | Some (Json.JObject members) =>
      match Json.member (lit "message") members with
      | Some (Json.JObject fields) =>
          match Json.member (lit "content") fields with
          | Some (Json.JString s) =>
              match s with [] => Skip | _ :: _ => Append s end
          | Some (Json.JBool true) => Append (lit "true")
          | Some (Json.JNumber _) | Some (Json.JArray _)
          | Some (Json.JObject _) => Unmodelled
          | Some Json.JNull | Some (Json.JBool false) | None => Skip
          end
      | _ => Skip
      end
  | Some _ => Skip
  end.

Record state := mkState {
  fullContent : jsstring;
  buffer : jsstring
}.

(** The [while (boundary !== -1)] loop. *)
Fixpoint drain (fuel : nat) (st : state) : option (outcome state) :=
  match fuel with
  | O => None
  | S fuel' =>
      let boundary := indexOf (buffer st) NL in
      if boundary =? -1 then Some (Returned st)
      else
        let jsonStr := substring (buffer st) (Num 0) (Num boundary) in
        let buffer' := substring_from (buffer st) (Num (boundary + 1)) in
        match jsonStr with
        | [] => drain fuel' {| fullContent := fullContent st;
                               buffer := buffer' |}
        | _ :: _ =>
            match line_fragment jsonStr with
            | Append fragment =>
                drain fuel' {| fullContent := fullContent st ++ fragment;
                               buffer := buffer' |}
            | Skip =>
                drain fuel' {| fullContent := fullContent st;
                               buffer := buffer' |}
            | Fails e => Some (Threw e)
            | Unmodelled => Some Outside
            end
        end
  end.

(** One turn of the [for await (const chunk of response.data)] loop;
    [chunk] is the text [chunk.toString()] gives. *)
Definition on_chunk (st : state) (chunk : jsstring) : option (outcome state) :=
  let buffer0 := buffer st ++ chunk in
  drain (S (List.length buffer0))
        {| fullContent := fullContent st; buffer := buffer0 |}.

Fixpoint consume (chunks : list jsstring) (st : state)
  : option (outcome state) :=
  match chunks with
  | [] => Some (Returned st)
  | chunk :: rest =>
      match on_chunk st chunk with
      | Some (Returned st') => consume rest st'
      | other => other
      end
  end.

(** The value of [fullContent] after the stream; [None] would be a [drain]
    that ran out of fuel, which does not happen ([consume_total]). *)
Definition streamContent (chunks : list jsstring)
  : option (outcome jsstring) :=
  match consume chunks {| fullContent := []; buffer := [] |} with
  | Some (Returned st) => Some (Returned (fullContent st))
  | Some (Threw e) => Some (Threw e)
  | Some Outside => Some Outside
  | None => None
  end.

End Stream.

Import Stream.

(* ================================================================== *)
(** ** The TypeScript service: chat completion *)

Module Service.

Record OllamaChatRequest := mkChatRequest {
  model : option jsstring;
  messages : list Message;
  temperature : option Q;
  max_tokens : option Z;
  stream : option bool
}.

Record ServiceContext := mkContext {
  correlationId : jsstring
}.

(** The defaults of the environment, numbers already parsed. *)
Record Env := mkEnv {
  DEFAULT_MODEL : option jsstring;
  DEFAULT_TEMPERATURE : option Q;
  DEFAULT_MAX_TOKENS : option Z
}.

Definition no_env : Env :=
  {| DEFAULT_MODEL := None; DEFAULT_TEMPERATURE := None;
     DEFAULT_MAX_TOKENS := None |}.

(** [value || fallback] on an optional string. *)
Definition string_or (v : option jsstring) (fallback : jsstring) : jsstring :=
  match v with
  | Some ((_ :: _) as s) => s
  | _ => fallback
  end.

(** The body posted to [/api/chat]. *)
Record ChatBody := mkChatBody {
  body_model : jsstring;
  body_messages : list Message;
  body_temperature : Q;
  body_num_predict : Z;
  body_stream : bool
}.

Record PostRequest := mkPost {
  url : jsstring;
  body : ChatBody;
  post_options : RequestOptions;
  responseType_stream : bool
}.

(** The backend behind [this.client.post]: what its [n]-th call answers,
    an error or the chunks of the response stream. *)
Definition Backend := nat -> PostRequest -> RequestError + list jsstring.

Record OllamaUsage := mkUsage {
  prompt_tokens : Z;
  completion_tokens : Z;
  total_tokens : Z
}.

Record ChatResult := mkResult {
  success : bool;
  data_message_content : jsstring;
  result_model : jsstring;
  usage : OllamaUsage
}.

(** The [catch] of [generateChatCompletion]: [logError] reads
    [error.message], which throws on [undefined]; an [AppError] goes on as
    it is and anything else is wrapped. *)
Definition rethrow (correlationId : jsstring) (e : Thrown) : Thrown :=
  match e with
  | ThrownUndefined => TypeError
  | _ =>
      if instanceof_AppError e then e
      else ExternalServiceError (lit "Chat completion failed") correlationId
                                (lit "Ollama") e
  end.

Definition generateChatCompletion (cfg : Config) (env : Env)
           (backend : Backend)
           (params : OllamaChatRequest) (context : ServiceContext)
           (w : World) : option (outcome ChatResult * World) :=
  let cid := correlationId context in
  let model' :=
    match model params with
    | Some m => m
    | None => string_or (DEFAULT_MODEL env) (lit "llama2")
    end in
  let temperature' :=
    match temperature params with
    | Some t => t
    | None => match DEFAULT_TEMPERATURE env with
              | Some t => t
              | None => 7 # 10
              end
    end in
  let max_tokens' :=
    match max_tokens params with
    | Some n => n
    | None => match DEFAULT_MAX_TOKENS env with
              | Some n => n
              | None => 2048
              end
    end in
  match messages params with
  | [] =>
      Some (Threw (rethrow cid
                     (AppError
                        (lit "Messages array is required and must not be empty")
                        400 (lit "VALIDATION_ERROR") cid)), w)
  | _ :: _ =>
      let requestData :=
        {| body_model := model'; body_messages := messages params;
           body_temperature := temperature';
           body_num_predict := max_tokens'; body_stream := true |} in
      let requestFn n options :=
        backend n {| url := lit "/api/chat"; body := requestData;
                     post_options := options;
                     responseType_stream := true |} in
      match retryRequest cfg requestFn {| opt_timeout := None |} cid w with
      | (Threw e, w') => Some (Threw (rethrow cid e), w')
      | (Outside, w') => Some (Outside, w')
      | (Returned response_data, w') =>
          match streamContent response_data with
          | None => None
          | Some (Threw e) => Some (Threw (rethrow cid e), w')
          | Some Outside => Some (Outside, w')
          | Some (Returned fullContent) =>
              Some (Returned
                      {| success := true;
                         data_message_content := fullContent;
                         result_model := model';
                         usage :=
                           {| prompt_tokens :=
                                countTokens_messages (messages params);
                              completion_tokens := length fullContent;
                              total_tokens :=
                                countTokens_messages (messages params)
                                + length fullContent |} |}, w')
          end
      end
  end.

End Service.

(* ================================================================== *)
(** ** The JavaScript service: retry and chat completion *)

Module Legacy.

Section Retry.

Context {R : Type}.
Variable maxRetries : Z.
Variable requestFn : nat -> RequestError + R.

Fixpoint attempts (remaining : nat) (attempt : Z)
         (lastError : option RequestError) (w : World)
  : outcome R * World :=
  match remaining with
  | O =>
      (Threw (match lastError with
              | Some e => Raw e
              | None => ThrownUndefined
              end), w)
  | S remaining' =>
      match requestFn (calls w) with
      | inr response => (Returned response, invoked w)
      | inl error =>
          let w' := invoked w in
          if attempt =? maxRetries then (Threw (Raw error), w')
          else attempts remaining' (attempt + 1) (Some error)
                        (slept (backoff attempt) w')
      end
  end.

Definition retryRequest (w : World) : outcome R * World :=
  attempts (Z.to_nat maxRetries) 1 None w.

End Retry.

(** The [catch] of a completion: the logger reads [error.message], which
    throws on [undefined], then [handleError] builds the error thrown. *)
Definition handleError (error : Thrown) : Thrown :=
  match error with
  | Raw e =>
      match response e with
      | Some (status, data_error) =>
          PlainError (lit "Ollama API Error (" ++ decimal status ++ lit "): "
                        ++ Service.string_or data_error (message e))
      | None =>
          if request e
          then PlainError (lit "Ollama server is unreachable. Please check the server URL and network connection.")
          else PlainError (lit "Request setup error: " ++ message e)
      end
  | ThrownUndefined => TypeError       (* error.message on undefined *)
  | other => SetupError other
  end.

Record ChatParams := mkParams {
  model : option jsstring;
  messages : list Message;
  temperature : option Q;
  max_tokens : option Z;
  stream : option bool
}.

(** What the JavaScript backend call is asked: the body, with the messages
    as [processLongMessages] left them. *)
Definition Backend := nat -> Service.ChatBody -> RequestError + Json.value.

Record ChatResult := mkResult {
  success : bool;
  data : Json.value;
  result_model : jsstring;
  usage : Service.OllamaUsage
}.

(** [response.data.message?.content?.length || 0]. *)
Definition content_length (data : Json.value) : outcome Z :=
  match data with
  | Json.JNull => Threw TypeError
  | Json.JObject members =>
      match Json.member (lit "message") members with
      | Some (Json.JObject fields) =>
          match Json.member (lit "content") fields with
          | Some (Json.JString s) => Returned (length s)
          | Some (Json.JArray l) => Returned (Z.of_nat (List.length l))
          | Some (Json.JObject _) => Outside
          | _ => Returned 0
          end
      | _ => Returned 0
      end
  | _ => Returned 0
  end.

Definition generateChatCompletion (maxRetries : Z) (env : Service.Env)
           (backend : Backend) (params : ChatParams) (w : World)
  : outcome ChatResult * World :=
  let model' :=
    match model params with
    | Some m => m
    | None => Service.string_or (Service.DEFAULT_MODEL env) (lit "llama2")
    end in
  let temperature' :=
    match temperature params with
    | Some t => t
    | None => match Service.DEFAULT_TEMPERATURE env with
              | Some t => if Qeq_bool t 0 then 7 # 10 else t
              | None => 7 # 10
              end
    end in
  let max_tokens' :=
    match max_tokens params with
    | Some n => n
    | None => match Service.DEFAULT_MAX_TOKENS env with
              | Some n => if n =? 0 then 2048 else n
              | None => 2048
              end
    end in
  let stream' := match stream params with Some b => b | None => false end in
  match messages params with
  | [] =>
      (Threw (PlainError
                (lit "Messages array is required and must not be empty")), w)
  | _ :: _ =>
      let processedMessages := processLongMessages (messages params) model' in
      let requestData :=
        {| Service.body_model := model';
           Service.body_messages := processedMessages;
           Service.body_temperature := temperature';
           Service.body_num_predict := max_tokens';
           Service.body_stream := stream' |} in
      match retryRequest maxRetries (fun n => backend n requestData) w with
      | (Threw e, w') => (Threw (handleError e), w')
      | (Outside, w') => (Outside, w')
      | (Returned response_data, w') =>
          match content_length response_data with
          | Threw e => (Threw (handleError e), w')
          | Outside => (Outside, w')
          | Returned n =>
              (Returned
                 {| success := true;
                    data := response_data;
                    result_model := model';
                    usage :=
                      {| Service.prompt_tokens :=
                           countTokens_messages (messages params);
                         Service.completion_tokens := n;
                         Service.total_tokens :=
                           countTokens_messages (messages params) + n |} |},
               w')
          end
      end
  end.

End Legacy.

(* ================================================================== *)
(** ** Statements of the specification kept for comparison *)

Module SpecReading.

(** The specification's reading of prompt fitting: every prompt whose
    estimate exceeds the budget comes back strictly shorter, as a non-empty
    head and a non-empty tail of the prompt around the marker. *)
Definition prompt_fit_claim (model prompt : jsstring) : Prop :=
  forall B, maxTokens model = Num B -> B < countTokens prompt ->
    length (processLongPrompt prompt model) < length prompt /\
    exists head tail rest1 rest2,
      head <> [] /\ tail <> [] /\
      prompt = head ++ rest1 /\ prompt = rest2 ++ tail /\
      processLongPrompt prompt model = head ++ prompt_marker ++ tail.

(** The specification's reading of message fitting, in the consequence
    used here: the recent messages are processed most recent first, so the
    most recent non-system message is kept whenever it fits in what the
    system messages leave of the budget. *)
Definition most_recent_first_claim : Prop :=
  forall messages model B latest,
    maxTokens model = Num B ->
    B < countTokens_messages messages ->
    hd_error (rev (filter (fun msg => negb (is_system msg)) messages))
    = Some latest ->
    countTokens (content latest)
    <= B - countTokens_messages (filter is_system messages) ->
    In latest (processLongMessages messages model).

(** The specification's reading of the retry policy: a failure that is
    not a transport-level failure of the backend call (here: the server
    answered, with an error status) causes no additional invocation. *)
Definition retries_only_transport_failures : Prop :=
  forall (cfg : Config) (requestFn : nat -> RequestOptions -> RequestError + unit)
         (options : RequestOptions) (correlationId : jsstring)
         (e : RequestError),
    (forall n o, requestFn n o = inl e) ->
    response e <> None ->
    calls (snd (retryRequest cfg requestFn options correlationId start))
    = 1%nat.

(** The specification's reading of the end of the stream: a last line that
    no line feed ends, and that carries message content, is consumed. *)
Definition trailing_line_consumed : Prop :=
  forall line fragment,
    indexOf line NL = -1 ->
    line_fragment line = Append fragment ->
    streamContent [line] = Some (Returned fragment).

(** The specification's reading of the validation of a chat completion,
    for the JavaScript service: a call whose messages array is empty fails,
    with the world of backend calls as it was, with a validation-typed
    error that carries a correlation id. *)
Definition empty_messages_validation_typed : Prop :=
  forall (maxRetries : Z) (env : Service.Env) (backend : Legacy.Backend)
         (params : Legacy.ChatParams) (w : World),
    Legacy.messages params = [] ->
    exists e,
      Legacy.generateChatCompletion maxRetries env backend params w
      = (Threw e, w) /\
      instanceof_AppError e = true /\
      code_of e = Some (lit "VALIDATION_ERROR") /\
      correlationId_of e <> None.

End SpecReading.

(* ================================================================== *)
(** ** Concrete inputs *)

Module Inputs.

(** 800 one-letter words: 1600 code units, estimate 1440. *)
Definition many_words : jsstring := List.concat (repeat (lit "a ") 800).

(** [n] times the letter a, without white space. *)
Definition letters (n : Z) : jsstring := repeat 97%N (Z.to_nat n).

Definition hello_line : jsstring := qlit "{'message':{'content':'Hello!'}}|".

Definition hello_data : Json.value :=
  Json.JObject
    [ (lit "message",
       Json.JObject [ (lit "content", Json.JString (lit "Hello!")) ]) ].

(** A complete JSON line that no line feed ends. *)
Definition unterminated_line : jsstring :=
  qlit "{'message':{'content':'Hello'}}".

Definition hi : list Message := [ mkMessage user (lit "Hi") None ].

Definition default_config : Config := {| timeout := 30000; maxRetries := 3 |}.

(** A server that answers 400 to every call. *)
Definition bad_request : RequestError :=
  {| code := Some (lit "ERR_BAD_REQUEST");
     message := lit "Request failed with status code 400";
     response := Some (400, Some (lit "invalid request"));
     request := true |}.

(** A call that runs into the client's timeout. *)
Definition timed_out : RequestError :=
  {| code := Some (lit "ECONNABORTED");
     message := lit "timeout of 30000ms exceeded";
     response := None;
     request := true |}.

(** A long question followed by a short one. *)
Definition long_then_short : list Message :=
  [ mkMessage user (letters 6000) None; mkMessage user (lit "Hi") None ].

End Inputs.

(* ================================================================== *)
(** ** Reference readings used by the further properties *)

(** A backoff delay, in milliseconds. *)
Definition delay_in_range (d : Z) : Prop := 1000 <= d <= 10000.

(** A text without line feed. *)
Definition no_line_feed (s : jsstring) : Prop := indexOf s NL = -1.

(** What reading the stream can throw. *)
Definition stream_error (e : Thrown) : Prop := e = SyntaxError \/ e = TypeError.

(** What the retry loop can throw once it has made a call. *)
Definition retry_error (cfg : Config) (options : RequestOptions)
           (cid : jsstring) (e : Thrown) : Prop :=
  (exists r, e = Raw r) \/
  e = TimeoutError (timeout_text cfg) cid
                   (timeout_or options (inject_Z (timeout cfg))).

(** The options of the call number [n] (from 0) of a retry: the timeout the
    caller set, if it set one that is not zero, and otherwise the configured
    timeout times 1.5 to the power [n], as a rational: the double the code
    computes is that rational while [max 1 |timeout| * 3 ^ n < 2 ^ 53]. *)
Definition attempt_options (cfg : Config) (options : RequestOptions) (n : nat)
  : RequestOptions :=
  let progressive :=
    Qred (inject_Z (timeout cfg) * Qpower (3 # 2) (Z.of_nat n)) in
  {| opt_timeout :=
       Some match opt_timeout options with
            | Some t => if Qeq_bool t 0 then progressive else t
            | None => progressive
            end |}.

Module Lines.

(** The text of a stream made of complete lines. *)
Definition join (lines : list jsstring) : jsstring :=
  List.concat (map (fun line => line ++ [NL]) lines).

(** The lines taken one after the other: an empty line counts for nothing,
    any other one does to the content what [line_fragment] says. *)
Fixpoint apply (lines : list jsstring) (fullContent : jsstring)
  : outcome jsstring :=
  match lines with
  | [] => Returned fullContent
  | line :: rest =>
      match line with
      | [] => apply rest fullContent
      | _ :: _ =>
          match line_fragment line with
          | Append fragment => apply rest (fullContent ++ fragment)
          | Skip => apply rest fullContent
          | Fails e => Threw e
          | Unmodelled => Outside
          end
      end
  end.

End Lines.

Module Buffers.

(** A chunk as the network delivers it. *)
Definition Buffer : Type := list Byte.byte.

(** The loop of [generateChatCompletion] over the chunks the response
    yields: [buffer += chunk.toString()] decodes every chunk on its own
    before it is appended.  [toString] is the decoding of a buffer as
    UTF-8, which belongs to the platform. *)
Definition streamBuffers (toString : Buffer -> jsstring)
           (chunks : list Buffer) : option (outcome jsstring) :=
  streamContent (map toString chunks).

(** What [toString] gives on a buffer of ASCII bytes: one code unit for
    each byte. *)
Definition ascii_text (buffer : Buffer) : jsstring := map Byte.to_N buffer.

(** The bytes of an ASCII literal in which the apostrophe stands for the
    double quote character and the vertical bar for a line feed. *)
Definition qbytes (s : string) : Buffer :=
  map (fun b => if Byte.eqb b Byte.x27 then Byte.x22
                else if Byte.eqb b Byte.x7c then Byte.x0a else b)
      (list_byte_of_string s).

End Buffers.

(* ================================================================== *)
(** ** Text completion, in both services *)

Module TextCompletion.

Record OllamaTextRequest := mkTextRequest {
  model : option jsstring;
  prompt : jsstring;
  temperature : option Q;
  max_tokens : option Z;
  stream : option bool
}.

(** The body posted to [/api/generate]. *)
Record TextBody := mkTextBody {
  body_model : jsstring;
  body_prompt : jsstring;
  body_temperature : Q;
  body_num_predict : Z;
  body_stream : bool
}.

Record PostRequest := mkPost {
  url : jsstring;
  body : TextBody;
  post_options : RequestOptions
}.

(** The backend behind [this.client.post] of the TypeScript service: what
    its [n]-th call answers, an error or the parsed body of the response. *)
Definition Backend := nat -> PostRequest -> RequestError + Json.value.

(** The same for the JavaScript service, which passes no options. *)
Definition LegacyBackend := nat -> TextBody -> RequestError + Json.value.

Record TextResult := mkResult {
  success : bool;
  data : Json.value;
  result_model : jsstring;
  usage : Service.OllamaUsage
}.

(** [response.data.response?.length || 0]. *)
Definition response_length (data : Json.value) : outcome Z :=
  match data with
  | Json.JNull => Threw TypeError
  | Json.JObject members =>
      match Json.member (lit "response") members with
      | Some (Json.JString s) => Returned (length s)
      | Some (Json.JArray l) => Returned (Z.of_nat (List.length l))
      | Some (Json.JObject _) => Outside
      | _ => Returned 0
      end
  | _ => Returned 0
  end.

(** The [catch] of the TypeScript [generateTextCompletion]. *)
Definition rethrow (correlationId : jsstring) (e : Thrown) : Thrown :=
  match e with
  | ThrownUndefined => TypeError
  | _ =>
      if instanceof_AppError e then e
      else ExternalServiceError (lit "Text completion failed") correlationId
                                (lit "Ollama") e
  end.

Definition generateTextCompletion (cfg : Config) (env : Service.Env)
           (backend : Backend)
           (params : OllamaTextRequest) (context : Service.ServiceContext)
           (w : World) : outcome TextResult * World :=
  let cid := Service.correlationId context in
  let model' :=
    match model params with
    | Some m => m
    | None => Service.string_or (Service.DEFAULT_MODEL env) (lit "llama2")
    end in
  let temperature' :=
    match temperature params with
    | Some t => t
    | None => match Service.DEFAULT_TEMPERATURE env with
              | Some t => t
              | None => 7 # 10
              end
    end in
  let max_tokens' :=
    match max_tokens params with
    | Some n => n
    | None => match Service.DEFAULT_MAX_TOKENS env with
              | Some n => n
              | None => 2048
              end
    end in
  let stream' := match stream params with Some b => b | None => false end in
  match prompt params with
  | [] =>
      (Threw (rethrow cid (AppError (lit "Prompt is required") 400
                                    (lit "VALIDATION_ERROR") cid)), w)
  | _ :: _ =>
      let requestData :=
        {| body_model := model'; body_prompt := prompt params;
           body_temperature := temperature';
           body_num_predict := max_tokens'; body_stream := stream' |} in
      let requestFn n options :=
        backend n {| url := lit "/api/generate"; body := requestData;
                     post_options := options |} in
      match retryRequest cfg requestFn {| opt_timeout := None |} cid w with
      | (Threw e, w') => (Threw (rethrow cid e), w')
      | (Outside, w') => (Outside, w')
      | (Returned response_data, w') =>
          match response_length response_data with
          | Threw e => (Threw (rethrow cid e), w')
          | Outside => (Outside, w')
          | Returned n =>
              (Returned
                 {| success := true;
                    data := response_data;
                    result_model := model';
                    usage :=
                      {| Service.prompt_tokens := countTokens (prompt params);
                         Service.completion_tokens := n;
                         Service.total_tokens :=
                           countTokens (prompt params) + n |} |}, w')
          end
      end
  end.

(** [generateTextCompletion] of the JavaScript service. *)
Definition legacy_generateTextCompletion (maxRetries : Z) (env : Service.Env)
           (backend : LegacyBackend) (params : OllamaTextRequest) (w : World)
  : outcome TextResult * World :=
  let model' :=
    match model params with
    | Some m => m
    | None => Service.string_or (Service.DEFAULT_MODEL env) (lit "llama2")
    end in
  let temperature' :=
    match temperature params with
    | Some t => t
    | None => match Service.DEFAULT_TEMPERATURE env with
              | Some t => if Qeq_bool t 0 then 7 # 10 else t
              | None => 7 # 10
              end
    end in
  let max_tokens' :=
    match max_tokens params with
    | Some n => n
    | None => match Service.DEFAULT_MAX_TOKENS env with
              | Some n => if n =? 0 then 2048 else n
              | None => 2048
              end
    end in
  let stream' := match stream params with Some b => b | None => false end in
  match prompt params with
  | [] => (Threw (PlainError (lit "Prompt is required")), w)
  | _ :: _ =>
      let processedPrompt := processLongPrompt (prompt params) model' in
      let requestData :=
        {| body_model := model'; body_prompt := processedPrompt;
           body_temperature := temperature';
           body_num_predict := max_tokens'; body_stream := stream' |} in
      match Legacy.retryRequest maxRetries (fun n => backend n requestData) w
      with
      | (Threw e, w') => (Threw (Legacy.handleError e), w')
      | (Outside, w') => (Outside, w')
      | (Returned response_data, w') =>
          match response_length response_data with
          | Threw e => (Threw (Legacy.handleError e), w')
          | Outside => (Outside, w')
          | Returned n =>
              (Returned
                 {| success := true;
                    data := response_data;
                    result_model := model';
                    usage :=
                      {| Service.prompt_tokens := countTokens (prompt params);
                         Service.completion_tokens := n;
                         Service.total_tokens :=
                           countTokens (prompt params) + n |} |}, w')
          end
      end
  end.

(** A backend that answers with the prompt it was sent. *)
Definition echo (body : TextBody) : Json.value :=
  Json.JObject [ (lit "response", Json.JString (body_prompt body)) ].

End TextCompletion.

(* ================================================================== *)
(** ** Error helpers of the TypeScript service *)

Module ErrorHelpers.

Section Messages.

(** The message the engine gives its own [SyntaxError] and [TypeError]. *)
Variable engine_message : Thrown -> jsstring.

(** [error.message]. *)
Fixpoint message_of (e : Thrown) : jsstring :=
  match e with
  | Raw r => message r
  | PlainError msg => msg
  | SetupError cause => lit "Request setup error: " ++ message_of cause
  | AppError msg _ _ _ => msg
  | TimeoutError msg _ _ => msg
  | ExternalServiceError msg _ _ original =>
      match original with
      | ThrownUndefined => msg
      | _ => msg ++ lit ": " ++ message_of original
      end
  | SyntaxError | TypeError => engine_message e
  | ThrownUndefined => []
  end.

(** [isOperationalError]: every [AppError] is built operational. *)
Definition isOperationalError (error : Thrown) : bool :=
  instanceof_AppError error.

Definition convertToAppError (error : Thrown) (correlationId : jsstring)
  : outcome Thrown :=
  if instanceof_AppError error then Returned error
  else
    match error with
    | ThrownUndefined => Threw TypeError       (* error.message *)
    | _ =>
        Returned
          (AppError (Service.string_or (Some (message_of error))
                                       (lit "An unexpected error occurred"))
                    500 (lit "INTERNAL_ERROR") correlationId)
    end.

End Messages.

End ErrorHelpers.

(* ================================================================== *)
(** ** The document service: text cleaning and word count *)

Module Document.

Local Open Scope N_scope.

(** [text.replace(/\r\n/g, '\n')]. *)
Fixpoint replace_crlf (s : jsstring) : jsstring :=
  match s with
  | [] => []
  | c :: r =>
      if c =? 13 then
        match r with
        | d :: r' => if d =? 10 then 10 :: replace_crlf r'
                     else c :: replace_crlf r
        | [] => [c]
        end
      else c :: replace_crlf r
  end.

(** [text.replace(/\r/g, '\n')]. *)
Definition replace_cr (s : jsstring) : jsstring :=
  map (fun c => if c =? 13 then 10 else c) s.

(** [text.replace(/\n{3,}/g, '\n\n')]: of every run of line feeds the first
    two are kept; [run] counts the line feeds just kept. *)
Fixpoint collapse_newlines (run : nat) (s : jsstring) : jsstring :=
  match s with
  | [] => []
  | c :: r =>
      if c =? 10 then
        if (run <? 2)%nat then c :: collapse_newlines (S run) r
        else collapse_newlines run r
      else c :: collapse_newlines 0 r
  end.

Definition is_blank (c : char16) : bool := (c =? 32) || (c =? 9).

(** [text.replace(/[ \t]+/g, ' ')]: every run of spaces and tabs becomes one
    space; [in_run] holds inside a run. *)
Fixpoint collapse_blanks (in_run : bool) (s : jsstring) : jsstring :=
  match s with
  | [] => []
  | c :: r =>
      if is_blank c then
        if in_run then collapse_blanks true r
        else 32 :: collapse_blanks true r
      else c :: collapse_blanks false r
  end.

Fixpoint drop_spaces (s : jsstring) : jsstring :=
  match s with
  | c :: r => if is_space c then drop_spaces r else s
  | [] => []
  end.

(** [text.trim()]. *)
Definition trim (s : jsstring) : jsstring :=
  rev (drop_spaces (rev (drop_spaces s))).

Definition cleanText (text : jsstring) : jsstring :=
  trim (collapse_blanks false
          (collapse_newlines 0 (replace_cr (replace_crlf text)))).

Definition countWords (text : jsstring) : Z :=
  Z.of_nat (List.length
              (filter (fun word => (0 <? length word)%Z)
                      (split_spaces (trim text)))).

End Document.

(** What a cleaned text looks like. *)
Module CleanShape.

Definition no_cr (s : jsstring) : Prop := Forall (fun c => c <> 13%N) s.

Definition no_tab (s : jsstring) : Prop := Forall (fun c => c <> 9%N) s.

(** No run of line feeds goes beyond two, [run] line feeds coming before. *)
Fixpoint newlines_ok (run : nat) (s : jsstring) : Prop :=
  match s with
  | [] => True
  | c :: r =>
      if N.eqb c 10 then (run < 2)%nat /\ newlines_ok (S run) r
      else newlines_ok 0 r
  end.

(** Every space or tab is a single space, none coming right before when
    [in_run] is false. *)
Fixpoint blanks_ok (in_run : bool) (s : jsstring) : Prop :=
  match s with
  | [] => True
  | c :: r =>
      if Document.is_blank c
      then c = 32%N /\ in_run = false /\ blanks_ok true r
      else blanks_ok false r
  end.

Definition starts_clean (s : jsstring) : Prop :=
  match s with
  | [] => True
  | c :: _ => is_space c = false
  end.

(** Neither the first nor the last code unit is white space. *)
Definition trimmed (s : jsstring) : Prop :=
  starts_clean s /\ starts_clean (rev s).

Definition clean (s : jsstring) : Prop :=
  no_cr s /\ no_tab s /\ newlines_ok 0 s /\ blanks_ok false s /\ trimmed s.

End CleanShape.

(* ================================================================== *)
(** * Properties *)

(** ** Strings *)

Section SubstringFacts.

Variable s : jsstring.

Lemma length_nonneg : 0 <= length s.
Proof. unfold length. lia. Qed.

Lemma substring_head (n : Z) :
  0 <= n <= length s ->
  substring s (Num 0) (Num n) = firstn (Z.to_nat n) s.
Proof.
  intros Hn. unfold substring, clamp.
  pose proof length_nonneg as Hl.
  replace (Z.min (Z.max 0 0) (length s)) with 0 by lia.
  replace (Z.min (Z.max n 0) (length s)) with n by lia.
  replace (Z.min 0 n) with 0 by lia.
  replace (Z.max 0 n - 0) with n by lia.
  reflexivity.
Qed.

Lemma substring_tail (k : Z) :
  0 <= k <= length s ->
  substring_from s (Num (length s - k))
  = skipn (Z.to_nat (length s - k)) s.
Proof.
  intros Hk. unfold substring_from, substring, clamp.
  replace (Z.min (Z.max (length s - k) 0) (length s))
    with (length s - k) by lia.
  replace (Z.min (Z.max (length s) 0) (length s)) with (length s) by lia.
  replace (Z.min (length s - k) (length s)) with (length s - k) by lia.
  replace (Z.max (length s - k) (length s) - (length s - k)) with k by lia.
  apply firstn_all2. rewrite length_skipn. unfold length in *. lia.
Qed.

Lemma firstn_nonempty (n : nat) :
  (0 < n)%nat -> s <> [] -> firstn n s <> [].
Proof.
  destruct n; [lia|]. destruct s; [congruence|]. discriminate.
Qed.

Lemma skipn_nonempty (n : nat) :
  (n < List.length s)%nat -> skipn n s <> [].
Proof.
  intros Hn Heq.
  assert (List.length (skipn n s) = 0%nat) as H0 by (rewrite Heq; reflexivity).
  rewrite length_skipn in H0. lia.
Qed.

End SubstringFacts.

Lemma length_app (a b : jsstring) : length (a ++ b) = length a + length b.
Proof. unfold length. rewrite List.length_app. lia. Qed.

(** ** Context limits *)

Ltac split_lookup m :=
  repeat match goal with
         | |- context [Js.eqb m ?k] => destruct (Js.eqb m k)
         | H : context [Js.eqb m ?k] |- _ => destruct (Js.eqb m k)
         end.

Lemma maxTokens_values (model : jsstring) (B : Z) :
  maxTokens model = Num B ->
  B = 1433 \/ B = 2867 \/ B = 5734 \/ B = 11468.
Proof.
  unfold maxTokens, contextLimit, get.
  cbn [own_property contextLimits].
  destruct (existsb (Js.eqb model) object_prototype_keys);
    split_lookup model; intros H; vm_compute in H;
    try discriminate; injection H as <-; lia.
Qed.

Lemma maxTokens_lower (model : jsstring) (B : Z) :
  maxTokens model = Num B -> 1433 <= B.
Proof. intros H. apply maxTokens_values in H. lia. Qed.

(** ** Prompt fitting *)

Lemma processLongPrompt_unchanged_or_cut (prompt model : jsstring) (B : Z) :
  maxTokens model = Num B ->
  processLongPrompt prompt model = prompt \/
  (4 * B < length prompt /\
   processLongPrompt prompt model
   = firstn (Z.to_nat (4 * B * 8 / 10)) prompt
       ++ prompt_marker
       ++ skipn (Z.to_nat (length prompt - (4 * B - 4 * B * 8 / 10 - 100)))
            prompt).
Proof.
  intros HB. pose proof (maxTokens_lower _ _ HB) as Hlow.
  unfold processLongPrompt. rewrite HB. cbn [leb mul floor_times sub].
  destruct (countTokens prompt <=? B); [now left|].
  destruct (Z.leb_spec (length prompt) (B * 4)) as [Hle|Hgt]; [now left|].
  right. split; [lia|].
  replace (B * 4) with (4 * B) by lia.
  rewrite substring_head by (Z.div_mod_to_equations; lia).
  rewrite substring_tail by (Z.div_mod_to_equations; lia).
  reflexivity.
Qed.

Lemma prompt_marker_length : length prompt_marker = 45.
Proof. reflexivity. Qed.

Lemma cut_length (prompt : jsstring) (B : Z) :
  1433 <= B -> 4 * B < length prompt ->
  length (firstn (Z.to_nat (4 * B * 8 / 10)) prompt
            ++ prompt_marker
            ++ skipn (Z.to_nat (length prompt - (4 * B - 4 * B * 8 / 10 - 100)))
                 prompt)
  = 4 * B - 55.
Proof.
  intros Hlow Hlong.
  rewrite !length_app, prompt_marker_length.
  unfold length in *. rewrite length_firstn, length_skipn.
  Z.div_mod_to_equations. lia.
Qed.

(** X3.  For a model whose limit is a number, fitting a prompt twice gives
    what fitting it once gives. *)
Lemma processLongPrompt_idempotent_numeric (prompt model : jsstring) (B : Z) :
  maxTokens model = Num B ->
  processLongPrompt (processLongPrompt prompt model) model
  = processLongPrompt prompt model.
Proof.
  intros HB. pose proof (maxTokens_lower _ _ HB) as Hlow.
  destruct (processLongPrompt_unchanged_or_cut prompt model B HB)
    as [Hsame | [Hlong Hcut]].
  - now rewrite !Hsame.
  - rewrite Hcut.
    match goal with |- processLongPrompt ?r _ = _ =>
      destruct (processLongPrompt_unchanged_or_cut r model B HB)
        as [Hsame | [Hlong' _]]; [exact Hsame|]
    end.
    rewrite cut_length in Hlong' by assumption. lia.
Qed.

(** A prompt of at most [4 * B] code units is never cut, whatever its
    estimate. *)
Lemma processLongPrompt_short_unchanged (model prompt : jsstring) (B : Z) :
  maxTokens model = Num B ->
  length prompt <= 4 * B ->
  processLongPrompt prompt model = prompt.
Proof.
  intros HB Hshort.
  destruct (processLongPrompt_unchanged_or_cut prompt model B HB)
    as [Hsame | [Hlong _]]; [exact Hsame | lia].
Qed.

(** C1 (amended).  For every model whose limit is a number and every prompt
    whose estimate exceeds the budget [B = floor(limit * 0.7)] and whose
    length exceeds [4 * B] code units, [processLongPrompt] returns a string
    strictly shorter than the prompt, made of a non-empty head of the prompt,
    the truncation marker and a non-empty tail of the prompt. *)
Theorem processLongPrompt_cuts_long_prompts (model prompt : jsstring) (B : Z) :
  maxTokens model = Num B ->
  B < countTokens prompt ->
  4 * B < length prompt ->
  length (processLongPrompt prompt model) < length prompt /\
  exists head tail rest1 rest2,
    head <> [] /\ tail <> [] /\
    prompt = head ++ rest1 /\ prompt = rest2 ++ tail /\
    processLongPrompt prompt model = head ++ prompt_marker ++ tail.
Proof.
  intros HB Htok Hlong. pose proof (maxTokens_lower _ _ HB) as Hlow.
  destruct (processLongPrompt_unchanged_or_cut prompt model B HB)
    as [Hsame | [_ Hcut]].
  - exfalso. revert Hsame. unfold processLongPrompt. rewrite HB.
    cbn [leb mul floor_times sub].
    destruct (Z.leb_spec (countTokens prompt) B); [lia|].
    destruct (Z.leb_spec (length prompt) (B * 4)); [lia|].
    intros Hsame.
    assert (length (substring prompt (Num 0) (Num (B * 4 * 8 / 10))
                      ++ prompt_marker
                      ++ substring_from prompt
                           (Num (length prompt
                                 - (B * 4 - B * 4 * 8 / 10 - 100))))
            = length prompt) as Hlen by (now rewrite Hsame).
    replace (B * 4) with (4 * B) in Hlen by lia.
    rewrite substring_head in Hlen by (Z.div_mod_to_equations; lia).
    rewrite substring_tail in Hlen by (Z.div_mod_to_equations; lia).
    rewrite cut_length in Hlen by assumption. lia.
  - split.
    + rewrite Hcut, cut_length by assumption. lia.
    + exists (firstn (Z.to_nat (4 * B * 8 / 10)) prompt),
             (skipn (Z.to_nat (length prompt
                               - (4 * B - 4 * B * 8 / 10 - 100))) prompt),
             (skipn (Z.to_nat (4 * B * 8 / 10)) prompt),
             (firstn (Z.to_nat (length prompt
                                - (4 * B - 4 * B * 8 / 10 - 100))) prompt).
      repeat split.
      * apply firstn_nonempty.
        -- assert (0 < 4 * B * 8 / 10) by (Z.div_mod_to_equations; lia). lia.
        -- intros ->. change (length []) with 0 in Hlong. lia.
      * apply skipn_nonempty.
        assert (0 < 4 * B - 4 * B * 8 / 10 - 100)
          by (Z.div_mod_to_equations; lia).
        unfold length in *. lia.
      * symmetry. apply firstn_skipn.
      * symmetry. apply firstn_skipn.
      * exact Hcut.
Qed.

Lemma processLongPrompt_cuts_long_prompts_witness :
  let prompt := Inputs.letters 6000 in
  length (processLongPrompt prompt (lit "phi")) < length prompt /\
  exists head tail rest1 rest2,
    head <> [] /\ tail <> [] /\
    prompt = head ++ rest1 /\ prompt = rest2 ++ tail /\
    processLongPrompt prompt (lit "phi") = head ++ prompt_marker ++ tail.
Proof.
  apply (processLongPrompt_cuts_long_prompts (lit "phi") (Inputs.letters 6000) 1433).
  - reflexivity.
  - vm_compute. reflexivity.
  - vm_compute. reflexivity.
Defined.

(** C1 (as stated) fails: 800 one-letter words have estimate 1440, above the
    budget 1433 of model phi, but only 1600 code units, below [4 * 1433]; the
    prompt comes back unchanged. *)
Lemma prompt_fit_claim_fails :
  ~ SpecReading.prompt_fit_claim (lit "phi") Inputs.many_words.
Proof.
  intros H.
  destruct (H 1433) as [Hlen _].
  - reflexivity.
  - vm_compute. reflexivity.
  - vm_compute in Hlen. discriminate.
Qed.

(** C2 (failing input).  With the model name "constructor" the table lookup
    reads a function inherited from [Object.prototype], the budget is [NaN],
    both guards are false and every application puts one more marker in
    front of the prompt: the operation is not idempotent there. *)
Theorem processLongPrompt_inherited_key_not_idempotent :
  processLongPrompt (lit "Hi") (lit "constructor")
  = prompt_marker ++ lit "Hi" /\
  processLongPrompt (processLongPrompt (lit "Hi") (lit "constructor"))
                    (lit "constructor")
  = prompt_marker ++ prompt_marker ++ lit "Hi" /\
  processLongPrompt (processLongPrompt (lit "Hi") (lit "constructor"))
                    (lit "constructor")
  <> processLongPrompt (lit "Hi") (lit "constructor").
Proof.
  repeat split; try (vm_compute; reflexivity).
  vm_compute. discriminate.
Qed.

(** ** Message fitting *)

Lemma countTokens_nonneg (s : jsstring) : 0 <= countTokens s.
Proof.
  unfold countTokens. pose proof (length_nonneg s).
  apply Z.div_pos; lia.
Qed.

Lemma countTokens_messages_from (l : list Message) :
  forall a : Z,
    fold_left (fun total message => total + countTokens (content message)) l a
    = a + countTokens_messages l.
Proof.
  unfold countTokens_messages.
  induction l as [|x l IH]; intros a; cbn [fold_left]; [lia|].
  rewrite (IH (a + _)), (IH (0 + _)). lia.
Qed.

Lemma countTokens_messages_cons (m : Message) (l : list Message) :
  countTokens_messages (m :: l)
  = countTokens (content m) + countTokens_messages l.
Proof.
  unfold countTokens_messages at 1. cbn [fold_left].
  rewrite countTokens_messages_from. lia.
Qed.

(** What the loop over the recent messages pushes: the messages that fit,
    unchanged and in their order, then a truncated copy of the first one
    that does not fit; the messages after that one are not looked at. *)
Lemma push_recent_shape (recent : list Message) :
  forall R : Z,
  exists kept rest,
    recent = kept ++ rest /\
    push_recent recent (Num R)
    = kept ++ match rest with
              | [] => []
              | m :: _ =>
                  [truncated_message m (Num (R - countTokens_messages kept))]
              end /\
    (kept <> [] -> countTokens_messages kept <= R) /\
    match rest with
    | [] => True
    | m :: _ => R - countTokens_messages kept < countTokens (content m)
    end.
Proof.
  induction recent as [|m recent IH]; intros R.
  - exists [], []. cbn. repeat split; congruence.
  - cbn [push_recent leb sub].
    destruct (Z.leb_spec (countTokens (content m)) R) as [Hfit | Hover].
    + destruct (IH (R - countTokens (content m)))
        as (kept & rest & Hsplit & Hpush & Hsum & Hnext).
      exists (m :: kept), rest.
      rewrite countTokens_messages_cons.
      replace (R - (countTokens (content m) + countTokens_messages kept))
        with (R - countTokens (content m) - countTokens_messages kept) by lia.
      repeat split.
      * now rewrite Hsplit.
      * now rewrite Hpush.
      * intros _. destruct kept as [|k kept].
        -- cbn. lia.
        -- assert (k :: kept <> []) as Hne by discriminate.
           specialize (Hsum Hne). lia.
      * exact Hnext.
    + exists [], (m :: recent).
      change (countTokens_messages []) with 0.
      replace (R - 0) with R by lia.
      repeat split; solve [congruence | exact Hover].
Qed.

Lemma slice_last_length {A} (n : nat) (l : list A) :
  (List.length (slice_last n l) <= n)%nat.
Proof. unfold slice_last. rewrite length_skipn. lia. Qed.

(** The shape of the result.  When the estimate of the messages exceeds the
    budget [B],
    [processLongMessages] returns every system message, then a selection from
    the (at most) 3 most recent non-system messages taken in their original
    order, oldest first: the messages that fit in the remaining budget are
    kept unchanged, the first one that does not fit is replaced by a copy
    with a truncated content, and the messages after it are dropped. *)
Theorem processLongMessages_selection
        (messages : list Message) (model : jsstring) (B : Z) :
  maxTokens model = Num B ->
  B < countTokens_messages messages ->
  let systemMessages := filter is_system messages in
  let recentMessages :=
    slice_last 3 (filter (fun msg => negb (is_system msg)) messages) in
  let remaining := B - countTokens_messages systemMessages in
  (List.length recentMessages <= 3)%nat /\
  exists kept rest,
    recentMessages = kept ++ rest /\
    processLongMessages messages model
    = systemMessages ++ kept
        ++ match rest with
           | [] => []
           | m :: _ =>
               [truncated_message m
                  (Num (remaining - countTokens_messages kept))]
           end /\
    (kept <> [] -> countTokens_messages kept <= remaining) /\
    match rest with
    | [] => True
    | m :: _ => remaining - countTokens_messages kept < countTokens (content m)
    end.
Proof.
  intros HB Hover sys recent remaining.
  split; [apply slice_last_length|].
  destruct (push_recent_shape recent remaining)
    as (kept & rest & Hsplit & Hpush & Hsum & Hnext).
  exists kept, rest. repeat split; try assumption.
  unfold processLongMessages. rewrite HB. cbn [leb sub].
  destruct (Z.leb_spec (countTokens_messages messages) B); [lia|].
  fold sys. fold recent. fold remaining. now rewrite Hpush.
Qed.

Lemma processLongMessages_selection_witness :
  exists kept rest,
    slice_last 3 (filter (fun msg => negb (is_system msg))
                         Inputs.long_then_short)
    = kept ++ rest /\
    processLongMessages Inputs.long_then_short (lit "phi")
    = kept ++ match rest with
              | [] => []
              | m :: _ =>
                  [truncated_message m (Num (1433 - countTokens_messages kept))]
              end.
Proof.
  destruct (processLongMessages_selection Inputs.long_then_short (lit "phi") 1433)
    as (_ & kept & rest & Hsplit & Hres & _).
  - reflexivity.
  - vm_compute. reflexivity.
  - exists kept, rest. split; [exact Hsplit | exact Hres].
Defined.

(** The most recent message is not served first: with a long question
    followed by the short question "Hi", the loop meets the long one first,
    truncates it and stops; "Hi", the most recent message, would fit but is
    dropped. *)
Lemma most_recent_first_claim_fails : ~ SpecReading.most_recent_first_claim.
Proof.
  intros H.
  specialize (H Inputs.long_then_short (lit "phi") 1433
                (mkMessage user (lit "Hi") None)).
  assert (In (mkMessage user (lit "Hi") None)
             (processLongMessages Inputs.long_then_short (lit "phi"))) as Hin.
  { apply H.
    - reflexivity.
    - vm_compute. reflexivity.
    - reflexivity.
    - vm_compute. discriminate. }
  vm_compute in Hin. destruct Hin as [Heq | []]. discriminate Heq.
Qed.

(** C3 (failing input).  For the model phi (budget 1433) and a question of
    6000 letters followed by the question "Hi" (estimates 1502 and 2, 1504
    together), [processLongMessages] serves the older message first: it
    returns one message, the long question cut to its first 4585 and last
    1097 letters around the truncation notice and followed by the message
    notice (5745 code units), and drops "Hi", the most recent message,
    although its estimate fits the budget.  The content put in place of one
    that does not fit need not be shorter either: 800 one-letter words (1600
    code units, estimate 1440) are within the [4 * 1433] code units
    [truncateText] allows, so they come back whole with the message notice
    appended, 1642 code units. *)
Theorem processLongMessages_serves_oldest_first :
  maxTokens (lit "phi") = Num 1433 /\
  countTokens_messages Inputs.long_then_short = 1504 /\
  countTokens (lit "Hi") = 2 /\
  processLongMessages Inputs.long_then_short (lit "phi")
  = [ mkMessage user
        (Inputs.letters 4585 ++ truncated_notice ++ Inputs.letters 1097
           ++ message_notice)
        None ] /\
  ~ In (mkMessage user (lit "Hi") None)
       (processLongMessages Inputs.long_then_short (lit "phi")) /\
  processLongMessages [ mkMessage user Inputs.many_words None ] (lit "phi")
  = [ mkMessage user (Inputs.many_words ++ message_notice) None ] /\
  length Inputs.many_words = 1600 /\
  length (Inputs.many_words ++ message_notice) = 1642.
Proof.
  split; [reflexivity|].
  split; [vm_compute; reflexivity|].
  split; [vm_compute; reflexivity|].
  split; [vm_compute; reflexivity|].
  split.
  - intros Hin. vm_compute in Hin. destruct Hin as [Heq | []].
    discriminate Heq.
  - split; [vm_compute; reflexivity|].
    split; vm_compute; reflexivity.
Qed.


(** ** Retrying transport *)

Section RetryFacts.

Context {R : Type}.
Variable cfg : Config.
Variable requestFn : nat -> RequestOptions -> RequestError + R.
Variable options : RequestOptions.
Variable cid : jsstring.

Lemma attempts_step (n : nat) (attempt : Z) last w :
  attempts cfg requestFn options cid (S n) attempt last w
  = match requestFn (calls w)
            {| opt_timeout :=
                 Some (timeout_or options
                         (progressiveTimeout (timeout cfg) attempt)) |} with
    | inr response => (Returned response, invoked w)
    | inl error =>
        if attempt =? maxRetries cfg then
          if isTimeoutError error
          then (Threw (TimeoutError (timeout_text cfg) cid
                         (timeout_or options (inject_Z (timeout cfg)))),
                invoked w)
          else (Threw (Raw error), invoked w)
        else attempts cfg requestFn options cid n (attempt + 1) (Some error)
                      (slept (backoff attempt) (invoked w))
    end.
Proof. reflexivity. Qed.

(** [d] more failures, then a success. *)
Lemma attempts_until_success (k : nat) (v : R) :
  Z.of_nat k < maxRetries cfg ->
  (forall i o, (i < k)%nat -> exists e, requestFn i o = inl e) ->
  (forall o, requestFn k o = inr v) ->
  forall d i last w,
    (i + d = k)%nat -> calls w = i ->
    attempts cfg requestFn options cid
             (Z.to_nat (maxRetries cfg) - i) (Z.of_nat i + 1) last w
    = (Returned v,
       {| calls := S k; sleeps := sleeps w ++ delays (S i) d |}).
Proof.
  intros Hk Hfail Hok.
  induction d as [|d IH]; intros i last w Hsum Hcalls.
  - replace i with k in * by lia.
    destruct (Z.to_nat (maxRetries cfg) - k)%nat as [|n] eqn:En; [lia|].
    rewrite attempts_step, Hcalls, Hok. unfold invoked, delays.
    cbn [seq map]. now rewrite Hcalls, app_nil_r.
  - destruct (Z.to_nat (maxRetries cfg) - i)%nat as [|n] eqn:En; [lia|].
    rewrite attempts_step, Hcalls.
    match goal with |- context [requestFn i ?o] =>
      destruct (Hfail i o) as [e He]; [lia|]; rewrite He
    end.
    destruct (Z.eqb_spec (Z.of_nat i + 1) (maxRetries cfg)) as [Heq|_];
      [lia|].
    replace n with (Z.to_nat (maxRetries cfg) - S i)%nat by lia.
    replace (Z.of_nat i + 1 + 1) with (Z.of_nat (S i) + 1) by lia.
    rewrite (IH (S i)); cbn [slept invoked calls sleeps]; try lia.
    unfold delays. cbn [seq map]. rewrite <- app_assoc. cbn [app].
    repeat f_equal. lia.
Qed.

(** Failures on every attempt: the loop uses all [maxRetries] of them. *)
Lemma attempts_all_fail :
  (forall i o, exists e, requestFn i o = inl e) ->
  forall d i last w,
    (i + S d = Z.to_nat (maxRetries cfg))%nat -> calls w = i ->
    exists e,
      requestFn (i + d)
                {| opt_timeout :=
                     Some (timeout_or options
                             (progressiveTimeout (timeout cfg)
                                                 (maxRetries cfg))) |}
      = inl e /\
      attempts cfg requestFn options cid (S d) (Z.of_nat i + 1) last w
      = (Threw (if isTimeoutError e
                then TimeoutError (timeout_text cfg) cid
                                  (timeout_or options
                                              (inject_Z (timeout cfg)))
                else Raw e),
         {| calls := Z.to_nat (maxRetries cfg);
            sleeps := sleeps w ++ delays (S i) d |}).
Proof.
  intros Hfail.
  induction d as [|d IH]; intros i last w Hsum Hcalls.
  - rewrite attempts_step, Hcalls.
    replace (Z.of_nat i + 1) with (maxRetries cfg) by lia.
    replace (i + 0)%nat with i by lia.
    match goal with |- context [requestFn i ?o] =>
      destruct (Hfail i o) as [e He]
    end.
    exists e. split; [exact He|]. rewrite He, Z.eqb_refl.
    unfold invoked, delays. cbn [seq map]. rewrite Hcalls, app_nil_r.
    replace (S i) with (Z.to_nat (maxRetries cfg)) by lia.
    now destruct (isTimeoutError e).
  - rewrite attempts_step, Hcalls.
    match goal with |- context [requestFn i ?o] =>
      destruct (Hfail i o) as [e0 He0]; rewrite He0
    end.
    destruct (Z.eqb_spec (Z.of_nat i + 1) (maxRetries cfg)) as [Heq|_];
      [lia|].
    replace (Z.of_nat i + 1 + 1) with (Z.of_nat (S i) + 1) by lia.
    destruct (IH (S i) (Some e0) (slept (backoff (Z.of_nat i + 1)) (invoked w)))
      as (e & He & Hrun); cbn [slept invoked calls sleeps]; try lia.
    exists e. split.
    + now replace (i + S d)%nat with (S i + d)%nat by lia.
    + rewrite Hrun. cbn [slept invoked calls sleeps].
      unfold delays. cbn [seq map]. rewrite <- app_assoc. cbn [app].
      repeat f_equal. lia.
Qed.

End RetryFacts.

Section LegacyRetryFacts.

Context {R : Type}.
Variable maxRetries : Z.
Variable requestFn : nat -> RequestError + R.

Lemma legacy_attempts_step (n : nat) (attempt : Z) last w :
  Legacy.attempts maxRetries requestFn (S n) attempt last w
  = match requestFn (calls w) with
    | inr response => (Returned response, invoked w)
    | inl error =>
        if attempt =? maxRetries then (Threw (Raw error), invoked w)
        else Legacy.attempts maxRetries requestFn n (attempt + 1)
                             (Some error)
                             (slept (backoff attempt) (invoked w))
    end.
Proof. reflexivity. Qed.

Lemma legacy_attempts_until_success (k : nat) (v : R) :
  Z.of_nat k < maxRetries ->
  (forall i, (i < k)%nat -> exists e, requestFn i = inl e) ->
  requestFn k = inr v ->
  forall d i last w,
    (i + d = k)%nat -> calls w = i ->
    Legacy.attempts maxRetries requestFn
                    (Z.to_nat maxRetries - i) (Z.of_nat i + 1) last w
    = (Returned v,
       {| calls := S k; sleeps := sleeps w ++ delays (S i) d |}).
Proof.
  intros Hk Hfail Hok.
  induction d as [|d IH]; intros i last w Hsum Hcalls.
  - replace i with k in * by lia.
    destruct (Z.to_nat maxRetries - k)%nat as [|n] eqn:En; [lia|].
    rewrite legacy_attempts_step, Hcalls, Hok. unfold invoked, delays.
    cbn [seq map]. now rewrite Hcalls, app_nil_r.
  - destruct (Z.to_nat maxRetries - i)%nat as [|n] eqn:En; [lia|].
    rewrite legacy_attempts_step, Hcalls.
    destruct (Hfail i) as [e He]; [lia|]. rewrite He.
    destruct (Z.eqb_spec (Z.of_nat i + 1) maxRetries) as [Heq|_]; [lia|].
    replace n with (Z.to_nat maxRetries - S i)%nat by lia.
    replace (Z.of_nat i + 1 + 1) with (Z.of_nat (S i) + 1) by lia.
    rewrite (IH (S i)); cbn [slept invoked calls sleeps]; try lia.
    unfold delays. cbn [seq map]. rewrite <- app_assoc. cbn [app].
    repeat f_equal. lia.
Qed.

End LegacyRetryFacts.

(** C4.  A request function that fails on its first [k] invocations, with
    [k < maxRetries], and succeeds on the next one: [retryRequest] returns
    that success value after exactly [k + 1] invocations, in the TypeScript
    service and in the JavaScript one, having slept the [k] backoff delays
    in between. *)
Theorem retryRequest_returns_first_success
        {R : Type} (cfg : Config)
        (requestFn : nat -> RequestOptions -> RequestError + R)
        (options : RequestOptions) (cid : jsstring) (k : nat) (v : R) :
  Z.of_nat k < maxRetries cfg ->
  (forall i o, (i < k)%nat -> exists e, requestFn i o = inl e) ->
  (forall o, requestFn k o = inr v) ->
  retryRequest cfg requestFn options cid start
  = (Returned v, {| calls := S k; sleeps := delays 1 k |})
  /\
  forall o,
    Legacy.retryRequest (maxRetries cfg) (fun n => requestFn n o) start
    = (Returned v, {| calls := S k; sleeps := delays 1 k |}).
Proof.
  intros Hk Hfail Hok. split.
  - unfold retryRequest.
    replace (Z.to_nat (maxRetries cfg)) with (Z.to_nat (maxRetries cfg) - 0)%nat
      by lia.
    change 1 with (Z.of_nat 0 + 1) at 1.
    now rewrite (attempts_until_success cfg requestFn options cid k v
                   Hk Hfail Hok k 0%nat None start).
  - intros o. unfold Legacy.retryRequest.
    replace (Z.to_nat (maxRetries cfg)) with (Z.to_nat (maxRetries cfg) - 0)%nat
      by lia.
    change 1 with (Z.of_nat 0 + 1) at 1.
    now rewrite (legacy_attempts_until_success (maxRetries cfg)
                   (fun n => requestFn n o) k v Hk
                   (fun i Hi => Hfail i o Hi) (Hok o) k 0%nat None start).
Qed.

Lemma retryRequest_returns_first_success_witness :
  let requestFn :=
    fun (n : nat) (_ : RequestOptions) =>
      if (n <? 2)%nat then inl Inputs.timed_out else inr 7 in
  retryRequest Inputs.default_config requestFn {| opt_timeout := None |}
               (lit "req-1") start
  = (Returned 7, {| calls := 3; sleeps := [1000; 2000] |}).
Proof.
  intros requestFn.
  apply (retryRequest_returns_first_success
           Inputs.default_config requestFn {| opt_timeout := None |}
           (lit "req-1") 2 7).
  - reflexivity.
  - intros i o Hi. exists Inputs.timed_out. unfold requestFn.
    destruct (Nat.ltb_spec i 2); [reflexivity | lia].
  - reflexivity.
Defined.

(** C5.  With at least one attempt configured, a request function that fails
    with a timeout-classified error on every invocation is invoked exactly
    [maxRetries] times, after which [retryRequest] throws a [TimeoutError]
    carrying the correlation id and the timeout value [options.timeout ||
    this.timeout], which is the configured [this.timeout] for the empty
    options the service passes. *)
Theorem retryRequest_timeout_after_maxRetries
        {R : Type} (cfg : Config)
        (requestFn : nat -> RequestOptions -> RequestError + R)
        (options : RequestOptions) (cid : jsstring) :
  0 < maxRetries cfg ->
  (forall i o, exists e, requestFn i o = inl e /\ isTimeoutError e = true) ->
  retryRequest cfg requestFn options cid start
  = (Threw (TimeoutError (timeout_text cfg) cid
                         (timeout_or options (inject_Z (timeout cfg)))),
     {| calls := Z.to_nat (maxRetries cfg);
        sleeps := delays 1 (Z.to_nat (maxRetries cfg) - 1) |})
  /\ (opt_timeout options = None ->
      timeout_or options (inject_Z (timeout cfg)) = inject_Z (timeout cfg)).
Proof.
  intros Hpos Hfail. split.
  - assert (forall i o, exists e, requestFn i o = inl e) as Hall.
    { intros i o. destruct (Hfail i o) as (e & He & _). now exists e. }
    assert (forall i o e, requestFn i o = inl e -> isTimeoutError e = true)
      as Htimeout.
    { intros i o e He. destruct (Hfail i o) as (e' & He' & Ht).
      rewrite He in He'. now injection He' as ->. }
    unfold retryRequest.
    destruct (attempts_all_fail cfg requestFn options cid Hall
                (Z.to_nat (maxRetries cfg) - 1) 0%nat None start)
      as (e & He & Hrun); [lia | reflexivity |].
    replace (S (Z.to_nat (maxRetries cfg) - 1)) with (Z.to_nat (maxRetries cfg))
      in Hrun by lia.
    change (Z.of_nat 0 + 1) with 1 in Hrun.
    rewrite Hrun, (Htimeout _ _ _ He). reflexivity.
  - intros Hnone. unfold timeout_or. now rewrite Hnone.
Qed.

Lemma retryRequest_timeout_after_maxRetries_witness :
  retryRequest (R := unit) Inputs.default_config
               (fun _ _ => inl Inputs.timed_out)
               {| opt_timeout := None |} (lit "req-1") start
  = (Threw (TimeoutError (timeout_text Inputs.default_config) (lit "req-1")
                         (inject_Z 30000)),
     {| calls := 3; sleeps := [1000; 2000] |}).
Proof.
  apply (retryRequest_timeout_after_maxRetries
           (R := unit) Inputs.default_config
           (fun _ _ => inl Inputs.timed_out)
           {| opt_timeout := None |} (lit "req-1")).
  - reflexivity.
  - intros i o. exists Inputs.timed_out. split; reflexivity.
Defined.

(** ** Stream reassembly *)

Lemma indexOf_bounds (s : jsstring) (c : char16) :
  -1 <= indexOf s c < length s.
Proof.
  induction s as [|x r IH]; cbn [indexOf].
  - cbn. lia.
  - replace (length (x :: r)) with (length r + 1)
      by (unfold length; cbn [List.length]; lia).
    destruct (N.eqb x c); [pose proof (length_nonneg r); lia|].
    destruct (Z.eqb_spec (indexOf r c) (-1)); lia.
Qed.

Lemma indexOf_app_absent (a b : jsstring) (c : char16) :
  indexOf a c = -1 -> indexOf b c = -1 -> indexOf (a ++ b) c = -1.
Proof.
  intros Ha Hb. induction a as [|x r IH]; [exact Hb|].
  cbn [indexOf app] in *.
  destruct (N.eqb x c); [discriminate|].
  pose proof (indexOf_bounds r c).
  destruct (Z.eqb_spec (indexOf r c) (-1)) as [Hr|Hr]; [|lia].
  now rewrite (IH Hr).
Qed.

(** What is left in the buffer after a line is shorter than the buffer. *)
Lemma rest_shorter (s : jsstring) (boundary : Z) :
  0 <= boundary < length s ->
  (List.length (substring_from s (Num (boundary + 1))) < List.length s)%nat.
Proof.
  intros Hb.
  replace (boundary + 1) with (length s - (length s - boundary - 1)) by lia.
  rewrite substring_tail by lia.
  rewrite length_skipn. unfold length in *. lia.
Qed.

Section DrainFacts.

Lemma drain_step (fuel : nat) (st : state) :
  drain (S fuel) st
  = let boundary := indexOf (buffer st) NL in
    if boundary =? -1 then Some (Returned st)
    else
      let jsonStr := substring (buffer st) (Num 0) (Num boundary) in
      let buffer' := substring_from (buffer st) (Num (boundary + 1)) in
      match jsonStr with
      | [] => drain fuel {| fullContent := fullContent st;
                            buffer := buffer' |}
      | _ :: _ =>
          match line_fragment jsonStr with
          | Append fragment =>
              drain fuel {| fullContent := fullContent st ++ fragment;
                            buffer := buffer' |}
          | Skip =>
              drain fuel {| fullContent := fullContent st;
                            buffer := buffer' |}
          | Fails e => Some (Threw e)
          | Unmodelled => Some Outside
          end
      end.
Proof. reflexivity. Qed.

(** The loop ends before the fuel does. *)
Lemma drain_total (fuel : nat) :
  forall st, (List.length (buffer st) < fuel)%nat -> drain fuel st <> None.
Proof.
  induction fuel as [|fuel IH]; intros st Hlen; [lia|].
  rewrite drain_step. cbv zeta.
  pose proof (indexOf_bounds (buffer st) NL) as Hb.
  destruct (Z.eqb_spec (indexOf (buffer st) NL) (-1)) as [|Hfound];
    [discriminate|].
  assert (List.length (substring_from (buffer st)
                         (Num (indexOf (buffer st) NL + 1))) < fuel)%nat
    as Hrest
    by (pose proof (rest_shorter (buffer st) (indexOf (buffer st) NL));
        lia).
  destruct (substring (buffer st) (Num 0) (Num (indexOf (buffer st) NL)));
    [now apply IH|].
  destruct (line_fragment _); try discriminate; now apply IH.
Qed.

(** When the loop ends normally the buffer holds no line feed. *)
Lemma drain_leaves_partial_line (fuel : nat) :
  forall st st',
    drain fuel st = Some (Returned st') -> indexOf (buffer st') NL = -1.
Proof.
  induction fuel as [|fuel IH]; intros st st'; [discriminate|].
  rewrite drain_step. cbv zeta.
  destruct (Z.eqb_spec (indexOf (buffer st) NL) (-1)) as [Hnone|Hfound].
  - intros H. injection H as <-. exact Hnone.
  - destruct (substring (buffer st) (Num 0) (Num (indexOf (buffer st) NL)));
      [apply IH|].
    destruct (line_fragment _); try discriminate; apply IH.
Qed.

Lemma on_chunk_total (st : state) (chunk : jsstring) :
  on_chunk st chunk <> None.
Proof. unfold on_chunk. apply drain_total. cbn. lia. Qed.

Lemma consume_total (chunks : list jsstring) :
  forall st, consume chunks st <> None.
Proof.
  induction chunks as [|chunk rest IH]; intros st; cbn [consume];
    [discriminate|].
  pose proof (on_chunk_total st chunk) as Hc.
  destruct (on_chunk st chunk) as [[st'| |]|]; try discriminate;
    [apply IH | congruence].
Qed.

Lemma consume_leaves_partial_line (chunks : list jsstring) :
  forall st st',
    indexOf (buffer st) NL = -1 ->
    consume chunks st = Some (Returned st') ->
    indexOf (buffer st') NL = -1.
Proof.
  induction chunks as [|chunk rest IH]; intros st st' Hst; cbn [consume].
  - intros H. injection H as <-. exact Hst.
  - destruct (on_chunk st chunk) as [[st1| |]|] eqn:E; try discriminate.
    apply IH. unfold on_chunk in E.
    now apply drain_leaves_partial_line in E.
Qed.

Lemma consume_app (a b : list jsstring) :
  forall st,
    consume (a ++ b) st
    = match consume a st with
      | Some (Returned st') => consume b st'
      | other => other
      end.
Proof.
  induction a as [|chunk rest IH]; intros st; cbn [consume app];
    [reflexivity|].
  destruct (on_chunk st chunk) as [[st1| |]|]; try reflexivity. apply IH.
Qed.

End DrainFacts.

Lemma streamContent_total (chunks : list jsstring) :
  streamContent chunks <> None.
Proof.
  unfold streamContent.
  pose proof (consume_total chunks {| fullContent := []; buffer := [] |}).
  destruct (consume chunks _) as [[st| |]|]; congruence.
Qed.

(** C7.  The two chunks of the specification, the first cut in the middle of
    a JSON object, are reassembled in order into "Hello world". *)
Theorem streamContent_reassembles_split_line :
  streamContent [ qlit "{'message':{'content':'Hel";
                  qlit "lo'}}|{'message':{'content':' world'}}|" ]
  = Some (Returned (lit "Hello world")).
Proof. vm_compute. reflexivity. Qed.

(** C8 (amended).  At the end of the stream what is left in the buffer, a
    last line that no line feed ends, is discarded: a final chunk without a
    line feed changes nothing of the accumulated content, whatever it
    holds. *)
Theorem streamContent_drops_unterminated_tail
        (chunks : list jsstring) (tail : jsstring) :
  indexOf tail NL = -1 ->
  streamContent (chunks ++ [tail]) = streamContent chunks.
Proof.
  intros Htail. unfold streamContent. rewrite consume_app.
  destruct (consume chunks {| fullContent := []; buffer := [] |})
    as [[st| |]|] eqn:E; try reflexivity.
  apply consume_leaves_partial_line in E; [|reflexivity].
  cbn [consume]. unfold on_chunk. rewrite drain_step. cbv zeta.
  cbn [buffer fullContent].
  now rewrite (indexOf_app_absent _ _ _ E Htail).
Qed.

Lemma streamContent_drops_unterminated_tail_witness :
  streamContent ([Inputs.hello_line] ++ [Inputs.unterminated_line])
  = streamContent [Inputs.hello_line].
Proof.
  apply (streamContent_drops_unterminated_tail
           [Inputs.hello_line] Inputs.unterminated_line).
  vm_compute. reflexivity.
Defined.

(** C8 (as stated) fails: a complete JSON line carrying the content "Hello",
    received without a line feed after it, contributes nothing. *)
Lemma trailing_line_consumed_fails : ~ SpecReading.trailing_line_consumed.
Proof.
  intros H.
  specialize (H Inputs.unterminated_line (lit "Hello")).
  assert (streamContent [Inputs.unterminated_line]
          = Some (Returned (lit "Hello"))) as Hflush.
  { apply H; vm_compute; reflexivity. }
  vm_compute in Hflush. discriminate Hflush.
Qed.

(** ** Chat completion *)

Lemma generateChatCompletion_total cfg env backend params context w :
  Service.generateChatCompletion cfg env backend params context w <> None.
Proof.
  unfold Service.generateChatCompletion.
  destruct (Service.messages params); [discriminate|].
  destruct (retryRequest _ _ _ _ _) as [[chunks|e|] w']; try discriminate.
  pose proof (streamContent_total chunks).
  destruct (streamContent chunks) as [[s|e|]|]; congruence.
Qed.

(** The check of the messages comes before the request is built. *)
Lemma validation_before_backend cfg env backend params context w :
  Service.messages params = [] ->
  Service.generateChatCompletion cfg env backend params context w
  = Some (Threw (AppError
                   (lit "Messages array is required and must not be empty")
                   400 (lit "VALIDATION_ERROR")
                   (Service.correlationId context)), w).
Proof.
  intros Hempty. unfold Service.generateChatCompletion.
  now rewrite Hempty.
Qed.

(** C6 (amended).  An input validation error is raised before the retry loop
    is entered, so no backend invocation occurs for it; inside the loop
    every failure of the request function is retried, whatever its kind (a
    timeout, a network failure or an error response of the server, a 4xx
    included): a request function that always fails is invoked [maxRetries]
    times. *)
Theorem retryRequest_retries_every_failure
        {R : Type} cfg env backend params context w
        (requestFn : nat -> RequestOptions -> RequestError + R)
        (options : RequestOptions) (cid : jsstring) :
  Service.messages params = [] ->
  0 < maxRetries cfg ->
  (forall i o, exists e, requestFn i o = inl e) ->
  Service.generateChatCompletion cfg env backend params context w
  = Some (Threw (AppError
                   (lit "Messages array is required and must not be empty")
                   400 (lit "VALIDATION_ERROR")
                   (Service.correlationId context)), w)
  /\
  calls (snd (retryRequest cfg requestFn options cid start))
  = Z.to_nat (maxRetries cfg).
Proof.
  intros Hempty Hpos Hfail. split.
  - now apply validation_before_backend.
  - unfold retryRequest.
    destruct (attempts_all_fail cfg requestFn options cid Hfail
                (Z.to_nat (maxRetries cfg) - 1) 0%nat None start)
      as (e & _ & Hrun); [lia | reflexivity |].
    replace (S (Z.to_nat (maxRetries cfg) - 1)) with (Z.to_nat (maxRetries cfg))
      in Hrun by lia.
    change (Z.of_nat 0 + 1) with 1 in Hrun.
    now rewrite Hrun.
Qed.

Lemma retryRequest_retries_every_failure_witness :
  calls (snd (retryRequest (R := unit) Inputs.default_config
                           (fun _ _ => inl Inputs.bad_request)
                           {| opt_timeout := None |} (lit "req-1") start))
  = 3%nat.
Proof.
  apply (retryRequest_retries_every_failure
           (R := unit) Inputs.default_config Service.no_env
           (fun _ _ => inl Inputs.bad_request)
           (Service.mkChatRequest None [] None None None)
           (Service.mkContext (lit "req-1")) start
           (fun _ _ => inl Inputs.bad_request)
           {| opt_timeout := None |} (lit "req-1")).
  - reflexivity.
  - reflexivity.
  - intros i o. now exists Inputs.bad_request.
Defined.

(** C6 (as stated) fails: a server that answers 400 to every call is called
    three times under the default configuration, not once. *)
Lemma retries_only_transport_failures_fails :
  ~ SpecReading.retries_only_transport_failures.
Proof.
  intros H.
  specialize (H Inputs.default_config (fun _ _ => inl Inputs.bad_request)
                {| opt_timeout := None |} (lit "req-1") Inputs.bad_request).
  assert (calls (snd (retryRequest (R := unit) Inputs.default_config
                        (fun _ _ => inl Inputs.bad_request)
                        {| opt_timeout := None |} (lit "req-1") start))
          = 1%nat) as Honce.
  { apply H; [reflexivity | discriminate]. }
  vm_compute in Honce. discriminate Honce.
Qed.

(** C9 (as stated) fails for the JavaScript service: its chat completion
    of an empty messages array throws a plain [Error], which is no
    [AppError], has no code and carries no correlation id. *)
Lemma empty_messages_validation_typed_fails :
  ~ SpecReading.empty_messages_validation_typed.
Proof.
  intros H.
  destruct (H 3 Service.no_env (fun _ _ => inr Inputs.hello_data)
              (Legacy.mkParams None [] None None None) start eq_refl)
    as (e & Hthrown & Htyped & _).
  vm_compute in Hthrown. injection Hthrown as <-.
  discriminate Htyped.
Qed.

(** C9 (amended).  A chat completion whose messages array is empty fails,
    before any backend call, with the validation error: in the TypeScript
    service an
    [AppError] of status 400 and code VALIDATION_ERROR tagged with the
    correlation id of the call, in the JavaScript service (which has no
    correlation id) a plain [Error] of the same message.  The world of
    backend calls is left as it was. *)
Theorem empty_messages_fail_validation
        cfg env backend params context w
        (js_maxRetries : Z) (js_backend : Legacy.Backend)
        (js_params : Legacy.ChatParams) :
  Service.messages params = [] ->
  Legacy.messages js_params = [] ->
  (exists e,
     Service.generateChatCompletion cfg env backend params context w
     = Some (Threw e, w) /\
     instanceof_AppError e = true /\
     statusCode_of e = Some 400 /\
     code_of e = Some (lit "VALIDATION_ERROR") /\
     correlationId_of e = Some (Service.correlationId context))
  /\
  Legacy.generateChatCompletion js_maxRetries env js_backend js_params w
  = (Threw (PlainError
              (lit "Messages array is required and must not be empty")), w).
Proof.
  intros Hempty Hjs. split.
  - eexists. split; [now apply validation_before_backend|].
    repeat split.
  - unfold Legacy.generateChatCompletion. now rewrite Hjs.
Qed.

Lemma empty_messages_fail_validation_witness :
  exists e,
    Service.generateChatCompletion
      Inputs.default_config Service.no_env
      (fun _ _ => inr [Inputs.hello_line])
      (Service.mkChatRequest (Some (lit "llama2")) [] None None None)
      (Service.mkContext (lit "req-1")) start
    = Some (Threw e, start) /\
    instanceof_AppError e = true /\
    statusCode_of e = Some 400 /\
    code_of e = Some (lit "VALIDATION_ERROR") /\
    correlationId_of e = Some (lit "req-1").
Proof.
  apply (empty_messages_fail_validation
           Inputs.default_config Service.no_env
           (fun _ _ => inr [Inputs.hello_line])
           (Service.mkChatRequest (Some (lit "llama2")) [] None None None)
           (Service.mkContext (lit "req-1")) start
           3 (fun _ _ => inr Inputs.hello_data)
           (Legacy.mkParams None [] None None None)).
  - reflexivity.
  - reflexivity.
Defined.

(** C10.  The chat completion of the single user message "Hi" with model
    llama2, against a backend that streams the one line
    [{"message":{"content":"Hello!"}}] ended by a line feed, returns the
    content "Hello!" with [prompt_tokens = estimate("Hi")],
    [completion_tokens = 6], the length of the content in code units (its
    estimate would be 3), and their sum as [total_tokens], after one backend
    call.  The JavaScript service computes the same usage from the parsed
    body. *)
Theorem hello_completion_usage
        cfg (context : Service.ServiceContext) (js_maxRetries : Z) :
  0 < maxRetries cfg ->
  0 < js_maxRetries ->
  Json.parse Inputs.hello_line = Some Inputs.hello_data /\
  countTokens (lit "Hello!") = 3 /\
  Service.generateChatCompletion
    cfg Service.no_env (fun _ _ => inr [Inputs.hello_line])
    (Service.mkChatRequest (Some (lit "llama2")) Inputs.hi None None None)
    context start
  = Some (Returned
            {| Service.success := true;
               Service.data_message_content := lit "Hello!";
               Service.result_model := lit "llama2";
               Service.usage :=
                 {| Service.prompt_tokens := countTokens (lit "Hi");
                    Service.completion_tokens := 6;
                    Service.total_tokens := countTokens (lit "Hi") + 6 |} |},
          {| calls := 1; sleeps := [] |})
  /\
  Legacy.generateChatCompletion
    js_maxRetries Service.no_env (fun _ _ => inr Inputs.hello_data)
    (Legacy.mkParams (Some (lit "llama2")) Inputs.hi None None None) start
  = (Returned
       {| Legacy.success := true;
          Legacy.data := Inputs.hello_data;
          Legacy.result_model := lit "llama2";
          Legacy.usage :=
            {| Service.prompt_tokens := countTokens (lit "Hi");
               Service.completion_tokens := 6;
               Service.total_tokens := countTokens (lit "Hi") + 6 |} |},
     {| calls := 1; sleeps := [] |}).
Proof.
  intros Hpos Hjs. split; [|split; [|split]].
  - vm_compute. reflexivity.
  - reflexivity.
  - unfold Service.generateChatCompletion, retryRequest.
    destruct (Z.to_nat (maxRetries cfg)) as [|n] eqn:En; [lia|].
    cbn [Service.messages Inputs.hi attempts]. vm_compute. reflexivity.
  - unfold Legacy.generateChatCompletion, Legacy.retryRequest.
    destruct (Z.to_nat js_maxRetries) as [|n] eqn:En; [lia|].
    cbn [Legacy.messages Inputs.hi Legacy.attempts]. vm_compute. reflexivity.
Qed.

Lemma hello_completion_usage_witness :
  Service.generateChatCompletion
    Inputs.default_config Service.no_env (fun _ _ => inr [Inputs.hello_line])
    (Service.mkChatRequest (Some (lit "llama2")) Inputs.hi None None None)
    (Service.mkContext (lit "req-1")) start
  = Some (Returned
            {| Service.success := true;
               Service.data_message_content := lit "Hello!";
               Service.result_model := lit "llama2";
               Service.usage :=
                 {| Service.prompt_tokens := 2;
                    Service.completion_tokens := 6;
                    Service.total_tokens := 8 |} |},
          {| calls := 1; sleeps := [] |}).
Proof.
  apply (hello_completion_usage Inputs.default_config
           (Service.mkContext (lit "req-1")) 3); reflexivity.
Defined.

(* ================================================================== *)
(** * Further properties of the services *)

(** ** Token estimate *)

Lemma split_ws_words (s : jsstring) :
  forall (in_sep : bool) (cur : jsstring),
    (List.length (filter (fun word => (0 <? length word)%Z) (split_ws in_sep cur s))
     <= (match cur with [] => 0 | _ :: _ => 1 end) + List.length s)%nat.
Proof.
  assert (forall cur : jsstring,
             (List.length (filter (fun word => (0 <? length word)%Z) [rev cur])
              = match cur with [] => 0 | _ :: _ => 1 end)%nat) as Hone.
  { intros [|c cur]; [reflexivity|]. cbn [filter].
    destruct (Z.ltb_spec 0 (length (rev (c :: cur)))) as [_|Hzero];
      [reflexivity|].
    unfold length in Hzero. rewrite length_rev in Hzero. cbn in Hzero. lia. }
  induction s as [|c r IH]; intros in_sep cur; cbn [split_ws].
  - rewrite Hone. cbn. lia.
  - cbn [List.length]. destruct (is_space c).
    + destruct in_sep.
      * specialize (IH true []). cbv iota in IH. unfold jsstring, char16 in *.
        destruct cur; cbv iota; lia.
      * change (rev cur :: split_ws true [] r)
          with ([rev cur] ++ split_ws true [] r).
        rewrite filter_app, List.length_app, Hone.
        specialize (IH true []). cbv iota in IH. unfold jsstring, char16 in *.
        destruct cur; cbv iota; lia.
    + specialize (IH false (c :: cur)). cbv iota in IH. unfold jsstring, char16 in *.
        destruct cur; cbv iota; lia.
Qed.

Lemma countTokens_lower (s : jsstring) : length s <= 4 * countTokens s.
Proof.
  unfold countTokens.
  pose proof (length_nonneg s).
  set (w := Z.of_nat _). assert (0 <= w) by (subst w; lia).
  Z.div_mod_to_equations. lia.
Qed.

(** X1.  The estimate of a string lies between a quarter of its length and
    twice its length in code units; it is zero for the empty string only. *)
Theorem countTokens_bounds (s : jsstring) :
  length s <= 4 * countTokens s /\
  countTokens s <= 2 * length s /\
  (countTokens s = 0 <-> s = []).
Proof.
  assert (countTokens s <= 2 * length s) as Hup.
  { unfold countTokens.
    pose proof (split_ws_words s false []) as Hw. cbn [plus] in Hw.
    unfold split_spaces. unfold length at 2 3.
    set (w := List.length _) in *.
    Z.div_mod_to_equations. lia. }
  pose proof (countTokens_lower s) as Hlow.
  repeat split; try assumption.
  - intros Hzero. destruct s as [|c r]; [reflexivity|].
    unfold length in Hlow. cbn [List.length] in Hlow. lia.
  - intros ->. reflexivity.
Qed.

(** ** Prompt fitting, by length alone *)

Lemma processLongPrompt_cut (prompt model : jsstring) (B : Z) :
  maxTokens model = Num B ->
  4 * B < length prompt ->
  processLongPrompt prompt model
  = firstn (Z.to_nat (4 * B * 8 / 10)) prompt
      ++ prompt_marker
      ++ skipn (Z.to_nat (length prompt - (4 * B - 4 * B * 8 / 10 - 100)))
           prompt.
Proof.
  intros HB Hlong. pose proof (maxTokens_lower _ _ HB) as Hlow.
  pose proof (countTokens_lower prompt) as Htok.
  unfold processLongPrompt. rewrite HB. cbn [leb mul floor_times sub].
  destruct (Z.leb_spec (countTokens prompt) B); [lia|].
  destruct (Z.leb_spec (length prompt) (B * 4)); [lia|].
  replace (B * 4) with (4 * B) by lia.
  rewrite substring_head by (Z.div_mod_to_equations; lia).
  rewrite substring_tail by (Z.div_mod_to_equations; lia).
  reflexivity.
Qed.

(** X2.  For a model whose limit is a number, with budget [B], the length of
    the prompt alone decides: [processLongPrompt] returns the prompt
    unchanged exactly when it has at most [4 * B] code units (a longer prompt
    always has an estimate above [B]), and what it returns is never longer
    than the prompt nor than [4 * B]. *)
Theorem processLongPrompt_by_length (prompt model : jsstring) (B : Z) :
  maxTokens model = Num B ->
  (processLongPrompt prompt model = prompt <-> length prompt <= 4 * B) /\
  length (processLongPrompt prompt model) <= Z.min (length prompt) (4 * B).
Proof.
  intros HB. pose proof (maxTokens_lower _ _ HB) as Hlow.
  destruct (Z.le_gt_cases (length prompt) (4 * B)) as [Hshort | Hlong].
  - rewrite (processLongPrompt_short_unchanged _ _ _ HB Hshort).
    split; [tauto | lia].
  - assert (4 * B < length prompt) as Hlong' by lia.
    pose proof (processLongPrompt_cut _ _ _ HB Hlong') as Hcut.
    assert (length (processLongPrompt prompt model) = 4 * B - 55) as Hlen
      by (rewrite Hcut; now apply cut_length).
    split; [|lia].
    split; [intros Hsame; rewrite Hsame in Hlen; lia | lia].
Qed.

Lemma processLongPrompt_by_length_witness :
  (processLongPrompt Inputs.many_words (lit "phi") = Inputs.many_words
   <-> length Inputs.many_words <= 4 * 1433) /\
  length (processLongPrompt Inputs.many_words (lit "phi"))
  <= Z.min (length Inputs.many_words) (4 * 1433).
Proof.
  apply (processLongPrompt_by_length Inputs.many_words (lit "phi") 1433).
  reflexivity.
Defined.

Lemma processLongPrompt_idempotent_numeric_witness :
  processLongPrompt (processLongPrompt (Inputs.letters 6000) (lit "phi"))
                    (lit "phi")
  = processLongPrompt (Inputs.letters 6000) (lit "phi").
Proof.
  apply (processLongPrompt_idempotent_numeric
           (Inputs.letters 6000) (lit "phi") 1433).
  reflexivity.
Defined.

(** ** Text truncation *)

Lemma substring_from_length (s : jsstring) (a : Z) :
  length (substring_from s (Num a))
  = length s - Z.min (Z.max a 0) (length s).
Proof.
  pose proof (length_nonneg s) as Hs.
  unfold substring_from, substring, clamp.
  replace (Z.min (Z.max (length s) 0) (length s)) with (length s) by lia.
  set (a' := Z.min (Z.max a 0) (length s)).
  replace (Z.min a' (length s)) with a' by lia.
  replace (Z.max a' (length s)) with (length s) by lia.
  unfold length in *. rewrite length_firstn, length_skipn. lia.
Qed.

Lemma truncateText_length (text : jsstring) (m : Z) :
  0 <= m < length text ->
  length (truncateText text (Num m))
  = m * 8 / 10 + 21 + Z.max 0 (m - m * 8 / 10 - 50).
Proof.
  intros Hm. unfold truncateText. cbn [leb floor_times sub].
  destruct (Z.leb_spec (length text) m); [lia|].
  rewrite substring_head by (Z.div_mod_to_equations; lia).
  rewrite !length_app, substring_from_length.
  change (length truncated_notice) with 21.
  assert (length (firstn (Z.to_nat (m * 8 / 10)) text) = m * 8 / 10) as ->.
  { unfold length in *. rewrite length_firstn.
    Z.div_mod_to_equations. lia. }
  Z.div_mod_to_equations. lia.
Qed.

(** X4.  With room for at least 101 code units, [truncateText] returns a
    text of at most [maxChars] code units, and truncating that text again
    to the same size changes nothing. *)
Theorem truncateText_fits (text : jsstring) (maxChars : Z) :
  101 <= maxChars ->
  length (truncateText text (Num maxChars)) <= maxChars /\
  truncateText (truncateText text (Num maxChars)) (Num maxChars)
  = truncateText text (Num maxChars).
Proof.
  intros Hroom.
  assert (length (truncateText text (Num maxChars)) <= maxChars) as Hfit.
  { destruct (Z.le_gt_cases (length text) maxChars) as [Hshort | Hlong].
    - unfold truncateText. cbn [leb].
      destruct (Z.leb_spec (length text) maxChars); [assumption | lia].
    - rewrite truncateText_length by lia.
      Z.div_mod_to_equations. lia. }
  split; [exact Hfit|].
  unfold truncateText at 1. cbn [leb].
  destruct (Z.leb_spec (length (truncateText text (Num maxChars))) maxChars);
    [reflexivity | lia].
Qed.

Lemma truncateText_fits_witness :
  length (truncateText (Inputs.letters 6000) (Num 5732)) <= 5732 /\
  truncateText (truncateText (Inputs.letters 6000) (Num 5732)) (Num 5732)
  = truncateText (Inputs.letters 6000) (Num 5732).
Proof.
  apply (truncateText_fits (Inputs.letters 6000) 5732). lia.
Defined.

(** ** Message fitting: what is kept *)

Lemma filter_twice {A} (f : A -> bool) (l : list A) :
  filter f (filter f l) = filter f l.
Proof.
  induction l as [|x l IH]; [reflexivity|]. cbn [filter].
  destruct (f x) eqn:E; cbn [filter]; [rewrite E|]; now rewrite ?IH.
Qed.

Lemma filter_none {A} (f : A -> bool) (l : list A) :
  Forall (fun x => f x = false) l -> filter f l = [].
Proof.
  induction 1 as [|x l Hx _ IH]; [reflexivity|].
  cbn [filter]. now rewrite Hx.
Qed.

Lemma filter_partition_length {A} (f : A -> bool) (l : list A) :
  (List.length (filter f l) + List.length (filter (fun x => negb (f x)) l)
   = List.length l)%nat.
Proof.
  induction l as [|x l IH]; [reflexivity|]. cbn [filter].
  destruct (f x); cbn [negb List.length]; lia.
Qed.

Lemma slice_last_Forall {A} (P : A -> Prop) (n : nat) (l : list A) :
  Forall P l -> Forall P (slice_last n l).
Proof.
  intros H. unfold slice_last. rewrite <- (firstn_skipn (List.length l - n) l) in H.
  now apply Forall_app in H.
Qed.

Lemma non_system_filtered (messages : list Message) :
  Forall (fun m => is_system m = false)
         (filter (fun msg => negb (is_system msg)) messages).
Proof.
  apply Forall_forall. intros m Hin. apply filter_In in Hin.
  destruct Hin as [_ H]. now destruct (is_system m).
Qed.

Lemma push_recent_non_system (recent : list Message) :
  Forall (fun m => is_system m = false) recent ->
  forall r, Forall (fun m => is_system m = false) (push_recent recent r).
Proof.
  induction 1 as [|m recent Hm _ IH]; intros r; cbn [push_recent];
    [constructor|].
  destruct (leb _ _).
  - constructor; [exact Hm | apply IH].
  - constructor; [exact Hm | constructor].
Qed.

Lemma push_recent_length (recent : list Message) :
  forall r, (List.length (push_recent recent r) <= List.length recent)%nat.
Proof.
  induction recent as [|m recent IH]; intros r; cbn [push_recent];
    [reflexivity|].
  destruct (leb _ _); cbn [List.length].
  - specialize (IH (sub r (Num (countTokens (content m))))). lia.
  - lia.
Qed.

Lemma push_recent_nonempty (recent : list Message) (r : number) :
  recent <> [] -> push_recent recent r <> [].
Proof.
  destruct recent as [|m recent]; [congruence|]. intros _.
  cbn [push_recent]. destruct (leb _ _); discriminate.
Qed.

Lemma processLongMessages_cases (messages : list Message) (model : jsstring) :
  processLongMessages messages model = messages \/
  processLongMessages messages model
  = filter is_system messages
      ++ push_recent
           (slice_last 3 (filter (fun msg => negb (is_system msg)) messages))
           (sub (maxTokens model)
                (Num (countTokens_messages (filter is_system messages)))).
Proof.
  unfold processLongMessages. destruct (leb _ _); [now left | now right].
Qed.

(** X5.  Whatever the model and the size of the conversation,
    [processLongMessages] returns exactly the system messages it was given,
    in their order: none is dropped, changed or added. *)
Theorem processLongMessages_keeps_system_messages
        (messages : list Message) (model : jsstring) :
  filter is_system (processLongMessages messages model)
  = filter is_system messages.
Proof.
  destruct (processLongMessages_cases messages model) as [-> | ->];
    [reflexivity|].
  rewrite filter_app, filter_twice.
  rewrite (filter_none is_system (push_recent _ _))
    by apply push_recent_non_system, slice_last_Forall, non_system_filtered.
  apply app_nil_r.
Qed.

(** X6.  [processLongMessages] never returns more messages than it was
    given, and never an empty array for a non-empty one: the backend is not
    sent an empty conversation because of the fitting. *)
Theorem processLongMessages_not_empty
        (messages : list Message) (model : jsstring) :
  messages <> [] ->
  processLongMessages messages model <> [] /\
  (List.length (processLongMessages messages model)
   <= List.length messages)%nat.
Proof.
  intros Hne.
  destruct (processLongMessages_cases messages model) as [-> | ->];
    [split; [exact Hne | lia]|].
  pose proof (filter_partition_length is_system messages) as Hpart.
  set (sys := filter is_system messages) in *.
  set (others := filter (fun msg => negb (is_system msg)) messages) in *.
  pose proof (push_recent_length (slice_last 3 others)
                (sub (maxTokens model) (Num (countTokens_messages sys))))
    as Hpush.
  pose proof (slice_last_length 3 others) as Hthree.
  assert (List.length (slice_last 3 others) <= List.length others)%nat
    as Hslice by (unfold slice_last; rewrite length_skipn; lia).
  split.
  - destruct sys as [|s sys']; [|discriminate].
    cbn [app]. apply push_recent_nonempty.
    assert (List.length others <> 0)%nat as Hothers.
    { cbn [List.length] in Hpart. destruct messages; [congruence|].
      cbn [List.length] in Hpart. lia. }
    unfold slice_last. intros Hnil.
    apply (f_equal (@List.length _)) in Hnil.
    rewrite length_skipn in Hnil. cbn [List.length] in Hnil. lia.
  - rewrite List.length_app. lia.
Qed.

Lemma processLongMessages_not_empty_witness :
  processLongMessages Inputs.long_then_short (lit "phi") <> [] /\
  (List.length (processLongMessages Inputs.long_then_short (lit "phi"))
   <= List.length Inputs.long_then_short)%nat.
Proof.
  apply (processLongMessages_not_empty Inputs.long_then_short (lit "phi")).
  discriminate.
Defined.

(** X7.  Either [processLongMessages] returns the messages as they are, or
    what it returns holds at most 3 messages that are not system messages. *)
Theorem processLongMessages_at_most_three_recent
        (messages : list Message) (model : jsstring) :
  processLongMessages messages model = messages \/
  (List.length (filter (fun msg => negb (is_system msg))
                       (processLongMessages messages model)) <= 3)%nat.
Proof.
  destruct (processLongMessages_cases messages model) as [H | H];
    [now left | right].
  rewrite H, filter_app.
  rewrite (filter_none (fun msg => negb (is_system msg))
                       (filter is_system messages)).
  - cbn [app].
    etransitivity; [apply filter_length_le|].
    etransitivity; [apply push_recent_length|].
    apply slice_last_length.
  - apply Forall_forall. intros m Hin. apply filter_In in Hin.
    destruct Hin as [_ ->]. reflexivity.
Qed.

Lemma substring_from_NaN (s : jsstring) : substring_from s NaN = s.
Proof.
  pose proof (length_nonneg s).
  unfold substring_from, substring, clamp.
  replace (Z.min (Z.max (length s) 0) (length s)) with (length s) by lia.
  replace (Z.min 0 (length s)) with 0 by lia.
  replace (Z.max 0 (length s) - 0) with (length s) by lia.
  cbn [Z.to_nat skipn]. apply firstn_all2. unfold length. lia.
Qed.

(** X8.  For a model name whose limit is not a number (a name inherited from
    [Object.prototype]), [processLongMessages] cuts every conversation,
    however short: it returns the system messages and, of the last three
    other messages, only the oldest one, its whole content between the two
    truncation notices. *)
Theorem processLongMessages_without_numeric_limit
        (messages : list Message) (model : jsstring) :
  maxTokens model = NaN ->
  processLongMessages messages model
  = filter is_system messages
      ++ match slice_last 3 (filter (fun msg => negb (is_system msg)) messages)
         with
         | [] => []
         | m :: _ =>
             [ {| role := role m;
                  content := truncated_notice ++ content m ++ message_notice;
                  name := name m |} ]
         end.
Proof.
  intros Hnan. unfold processLongMessages. rewrite Hnan. cbn [leb sub].
  f_equal.
  destruct (slice_last 3 _) as [|m rest]; [reflexivity|].
  cbn [push_recent leb]. unfold truncated_message, truncateText.
  cbn [floor_times leb sub]. rewrite substring_from_NaN.
  pose proof (length_nonneg (content m)).
  unfold substring. cbn [clamp].
  replace (Z.min (Z.max 0 0) (length (content m))) with 0 by lia.
  cbn [Z.min Z.max Z.sub Z.compare Z.to_nat firstn app Z.opp Z.add].
  now rewrite <- app_assoc.
Qed.

Lemma processLongMessages_without_numeric_limit_witness :
  processLongMessages Inputs.hi (lit "toString")
  = [ {| role := user;
         content := truncated_notice ++ lit "Hi" ++ message_notice;
         name := None |} ].
Proof.
  apply (processLongMessages_without_numeric_limit Inputs.hi (lit "toString")).
  reflexivity.
Defined.

(** ** Retrying transport: bounds and edges *)

Lemma backoff_range (attempt : Z) :
  1 <= attempt -> 1000 <= backoff attempt <= 10000.
Proof.
  intros Ha. unfold backoff.
  assert (0 < 2 ^ (attempt - 1)) by (apply Z.pow_pos_nonneg; lia).
  lia.
Qed.

Section RetryBounds.

Context {R : Type}.
Variable cfg : Config.
Variable requestFn : nat -> RequestOptions -> RequestError + R.
Variable options : RequestOptions.
Variable cid : jsstring.

Lemma attempts_bounded (n : nat) :
  forall attempt last w,
    1 <= attempt ->
    Z.of_nat (S n) = maxRetries cfg - attempt + 1 ->
    exists extra,
      let w' := snd (attempts cfg requestFn options cid (S n) attempt last w) in
      (calls w < calls w' <= calls w + S n)%nat /\
      sleeps w' = sleeps w ++ extra /\
      S (List.length extra) = (calls w' - calls w)%nat /\
      Forall delay_in_range extra.
Proof.
  induction n as [|n IH]; intros attempt last w Hpos Hsync;
    rewrite attempts_step; cbv zeta.
  - destruct (requestFn _ _) as [e|v]; cbn [snd].
    + destruct (Z.eqb_spec attempt (maxRetries cfg)); [|lia].
      exists []. destruct (isTimeoutError e); cbn [snd invoked calls sleeps];
        rewrite app_nil_r; repeat split; try apply Forall_nil;
        cbn [List.length]; lia.
    + exists []. cbn [snd invoked calls sleeps].
      rewrite app_nil_r; repeat split; try apply Forall_nil;
        cbn [List.length]; lia.
  - destruct (requestFn _ _) as [e|v]; cbn [snd].
    + destruct (Z.eqb_spec attempt (maxRetries cfg)); [lia|].
      destruct (IH (attempt + 1) (Some e)
                   (slept (backoff attempt) (invoked w)))
        as (extra & Hcalls & Hsleeps & Hlen & Hrange); [lia | lia |].
      cbv zeta in Hcalls, Hsleeps, Hlen.
      cbn [slept invoked calls sleeps] in Hcalls, Hsleeps, Hlen.
      exists (backoff attempt :: extra). repeat split.
      * lia.
      * lia.
      * rewrite Hsleeps, <- app_assoc. reflexivity.
      * cbn [List.length]. lia.
      * constructor; [now apply backoff_range | exact Hrange].
    + exists []. cbn [snd invoked calls sleeps].
      rewrite app_nil_r; repeat split; try apply Forall_nil;
        cbn [List.length]; lia.
Qed.

End RetryBounds.

Section LegacyRetryBounds.

Context {R : Type}.
Variable maxRetries : Z.
Variable requestFn : nat -> RequestError + R.

Lemma legacy_attempts_bounded (n : nat) :
  forall attempt last w,
    1 <= attempt ->
    Z.of_nat (S n) = maxRetries - attempt + 1 ->
    exists extra,
      let w' := snd (Legacy.attempts maxRetries requestFn (S n) attempt last w) in
      (calls w < calls w' <= calls w + S n)%nat /\
      sleeps w' = sleeps w ++ extra /\
      S (List.length extra) = (calls w' - calls w)%nat /\
      Forall delay_in_range extra.
Proof.
  induction n as [|n IH]; intros attempt last w Hpos Hsync;
    rewrite legacy_attempts_step.
  - destruct (requestFn _) as [e|v]; cbn [snd].
    + destruct (Z.eqb_spec attempt maxRetries); [|lia].
      exists []. cbn [snd invoked calls sleeps].
      rewrite app_nil_r; repeat split; try apply Forall_nil;
        cbn [List.length]; lia.
    + exists []. cbn [snd invoked calls sleeps].
      rewrite app_nil_r; repeat split; try apply Forall_nil;
        cbn [List.length]; lia.
  - destruct (requestFn _) as [e|v]; cbn [snd].
    + destruct (Z.eqb_spec attempt maxRetries); [lia|].
      destruct (IH (attempt + 1) (Some e)
                   (slept (backoff attempt) (invoked w)))
        as (extra & Hcalls & Hsleeps & Hlen & Hrange); [lia | lia |].
      cbv zeta in Hcalls, Hsleeps, Hlen.
      cbn [slept invoked calls sleeps] in Hcalls, Hsleeps, Hlen.
      exists (backoff attempt :: extra). repeat split.
      * lia.
      * lia.
      * rewrite Hsleeps, <- app_assoc. reflexivity.
      * cbn [List.length]. lia.
      * constructor; [now apply backoff_range | exact Hrange].
    + exists []. cbn [snd invoked calls sleeps].
      rewrite app_nil_r; repeat split; try apply Forall_nil;
        cbn [List.length]; lia.
Qed.

End LegacyRetryBounds.

(** X9.  Whatever the request function does, [retryRequest] (of either
    service) calls it at most [maxRetries] times, sleeps exactly once
    between two consecutive calls and never after the last one, and every
    delay it sleeps lies between 1000 and 10000 ms. *)
Theorem retryRequest_bounded
        {R : Type} (cfg : Config)
        (requestFn : nat -> RequestOptions -> RequestError + R)
        (options : RequestOptions) (cid : jsstring)
        (js_requestFn : nat -> RequestError + R) :
  let w := snd (retryRequest cfg requestFn options cid start) in
  let js := snd (Legacy.retryRequest (maxRetries cfg) js_requestFn start) in
  ((calls w <= Z.to_nat (maxRetries cfg))%nat /\
   List.length (sleeps w) = pred (calls w) /\
   Forall delay_in_range (sleeps w))
  /\
  ((calls js <= Z.to_nat (maxRetries cfg))%nat /\
   List.length (sleeps js) = pred (calls js) /\
   Forall delay_in_range (sleeps js)).
Proof.
  cbv zeta. unfold retryRequest, Legacy.retryRequest.
  destruct (Z.to_nat (maxRetries cfg)) as [|n] eqn:En.
  - cbn. repeat split; constructor.
  - split.
    + destruct (attempts_bounded cfg requestFn options cid n 1 None start)
        as (extra & Hcalls & Hsleeps & Hlen & Hrange); [lia | lia |].
      cbv zeta in *. cbn [start calls sleeps app] in *.
      rewrite Hsleeps. repeat split; [lia | lia | exact Hrange].
    + destruct (legacy_attempts_bounded (maxRetries cfg) js_requestFn n 1
                  None start)
        as (extra & Hcalls & Hsleeps & Hlen & Hrange); [lia | lia |].
      cbv zeta in *. cbn [start calls sleeps app] in *.
      rewrite Hsleeps. repeat split; [lia | lia | exact Hrange].
Qed.

(** X10.  With [maxRetries] zero or negative [retryRequest] (of either
    service) calls nothing and throws [undefined]; the chat completion of
    the TypeScript service then fails with a [TypeError], not with an
    [AppError], without any backend call. *)
Theorem retryRequest_without_attempts
        {R : Type} (cfg : Config)
        (requestFn : nat -> RequestOptions -> RequestError + R)
        (options : RequestOptions) (cid : jsstring)
        (js_requestFn : nat -> RequestError + R)
        env backend params context (w : World) :
  maxRetries cfg <= 0 ->
  Service.messages params <> [] ->
  retryRequest cfg requestFn options cid w = (Threw ThrownUndefined, w) /\
  Legacy.retryRequest (maxRetries cfg) js_requestFn w
  = (Threw ThrownUndefined, w) /\
  Service.generateChatCompletion cfg env backend params context w
  = Some (Threw TypeError, w).
Proof.
  intros Hnone Hmessages.
  unfold Service.generateChatCompletion, retryRequest, Legacy.retryRequest.
  replace (Z.to_nat (maxRetries cfg)) with 0%nat by lia.
  repeat split.
  destruct (Service.messages params); [congruence | reflexivity].
Qed.

Lemma retryRequest_without_attempts_witness :
  Service.generateChatCompletion
    {| timeout := 30000; maxRetries := 0 |} Service.no_env
    (fun _ _ => inr [Inputs.hello_line])
    (Service.mkChatRequest None Inputs.hi None None None)
    (Service.mkContext (lit "req-1")) start
  = Some (Threw TypeError, start).
Proof.
  apply (retryRequest_without_attempts
           (R := unit) {| timeout := 30000; maxRetries := 0 |}
           (fun _ _ => inr tt) {| opt_timeout := None |} (lit "req-1")
           (fun _ => inr tt) Service.no_env
           (fun _ _ => inr [Inputs.hello_line])
           (Service.mkChatRequest None Inputs.hi None None None)
           (Service.mkContext (lit "req-1")) start).
  - cbn. lia.
  - discriminate.
Defined.

Section LegacyAllFail.

Context {R : Type}.
Variable maxRetries : Z.
Variable err : nat -> RequestError.

Lemma legacy_attempts_all_fail :
  forall d i last w,
    (i + S d = Z.to_nat maxRetries)%nat -> calls w = i ->
    Legacy.attempts (R := R) maxRetries (fun n => inl (err n))
                    (S d) (Z.of_nat i + 1) last w
    = (Threw (Raw (err (i + d))),
       {| calls := Z.to_nat maxRetries;
          sleeps := sleeps w ++ delays (S i) d |}).
Proof.
  induction d as [|d IH]; intros i last w Hsum Hcalls;
    rewrite legacy_attempts_step, Hcalls.
  - destruct (Z.eqb_spec (Z.of_nat i + 1) maxRetries); [|lia].
    unfold invoked, delays. cbn [seq map]. rewrite Hcalls, app_nil_r.
    replace (i + 0)%nat with i by lia.
    replace (S i) with (Z.to_nat maxRetries) by lia. reflexivity.
  - destruct (Z.eqb_spec (Z.of_nat i + 1) maxRetries); [lia|].
    replace (Z.of_nat i + 1 + 1) with (Z.of_nat (S i) + 1) by lia.
    rewrite (IH (S i)); cbn [slept invoked calls sleeps]; try lia.
    replace (i + S d)%nat with (S i + d)%nat by lia.
    unfold delays. cbn [seq map]. rewrite <- app_assoc. cbn [app].
    replace (Z.of_nat (S i)) with (Z.of_nat i + 1) by lia.
    reflexivity.
Qed.

End LegacyAllFail.

(** X11.  When every call fails, only the failure of the last attempt
    decides what the TypeScript [retryRequest] throws: if that one is not
    timeout-classified the raw error of the last attempt is thrown, whatever
    the earlier failures were (timeouts included), after [maxRetries]
    calls. *)
Theorem retryRequest_throws_last_error
        {R : Type} (cfg : Config) (err : nat -> RequestError)
        (options : RequestOptions) (cid : jsstring) :
  0 < maxRetries cfg ->
  isTimeoutError (err (Z.to_nat (maxRetries cfg) - 1)%nat) = false ->
  retryRequest (R := R) cfg (fun n _ => inl (err n)) options cid start
  = (Threw (Raw (err (Z.to_nat (maxRetries cfg) - 1)%nat)),
     {| calls := Z.to_nat (maxRetries cfg);
        sleeps := delays 1 (Z.to_nat (maxRetries cfg) - 1) |}).
Proof.
  intros Hpos Hlast. unfold retryRequest.
  destruct (attempts_all_fail (R := R) cfg (fun n _ => inl (err n)) options cid
              (fun i o => ex_intro _ (err i) eq_refl)
              (Z.to_nat (maxRetries cfg) - 1) 0%nat None start)
    as (e & He & Hrun); [lia | reflexivity |].
  replace (S (Z.to_nat (maxRetries cfg) - 1)) with (Z.to_nat (maxRetries cfg))
    in Hrun by lia.
  change (Z.of_nat 0 + 1) with 1 in Hrun.
  cbn [plus] in He. injection He as <-.
  rewrite Hrun, Hlast. reflexivity.
Qed.

Lemma retryRequest_throws_last_error_witness :
  retryRequest (R := unit) Inputs.default_config
               (fun n _ => inl (if (n <? 2)%nat then Inputs.timed_out
                                else Inputs.bad_request))
               {| opt_timeout := None |} (lit "req-1") start
  = (Threw (Raw Inputs.bad_request), {| calls := 3; sleeps := [1000; 2000] |}).
Proof.
  apply (retryRequest_throws_last_error
           (R := unit) Inputs.default_config
           (fun n => if (n <? 2)%nat then Inputs.timed_out
                     else Inputs.bad_request)
           {| opt_timeout := None |} (lit "req-1")); reflexivity.
Defined.

(** X12.  The JavaScript [retryRequest] has no timeout error of its own:
    when every call fails it throws the raw error of the last attempt, a
    timeout included, after [maxRetries] calls and the backoff delays in
    between. *)
Theorem legacy_retryRequest_throws_last_error
        {R : Type} (maxRetries : Z) (err : nat -> RequestError) :
  0 < maxRetries ->
  Legacy.retryRequest (R := R) maxRetries (fun n => inl (err n)) start
  = (Threw (Raw (err (Z.to_nat maxRetries - 1)%nat)),
     {| calls := Z.to_nat maxRetries;
        sleeps := delays 1 (Z.to_nat maxRetries - 1) |}).
Proof.
  intros Hpos. unfold Legacy.retryRequest.
  pose proof (legacy_attempts_all_fail (R := R) maxRetries err
                (Z.to_nat maxRetries - 1) 0%nat None start) as Hrun.
  replace (S (Z.to_nat maxRetries - 1)) with (Z.to_nat maxRetries)
    in Hrun by lia.
  apply Hrun; [lia | reflexivity].
Qed.

Lemma legacy_retryRequest_throws_last_error_witness :
  Legacy.retryRequest (R := unit) 3 (fun _ => inl Inputs.timed_out) start
  = (Threw (Raw Inputs.timed_out), {| calls := 3; sleeps := [1000; 2000] |}).
Proof.
  apply (legacy_retryRequest_throws_last_error
           (R := unit) 3 (fun _ => Inputs.timed_out)). reflexivity.
Defined.

(** ** Stream reassembly: chunks and lines *)

Lemma indexOf_found (s : jsstring) (c : char16) :
  indexOf s c <> -1 -> 0 <= indexOf s c < length s.
Proof. pose proof (indexOf_bounds s c). lia. Qed.

Lemma indexOf_app_found (a b : jsstring) (c : char16) :
  indexOf a c <> -1 -> indexOf (a ++ b) c = indexOf a c.
Proof.
  induction a as [|x r IH]; cbn [indexOf app]; [congruence|].
  destruct (N.eqb x c); [reflexivity|].
  destruct (Z.eqb_spec (indexOf r c) (-1)) as [|Hr]; [congruence|].
  intros _. rewrite (IH Hr).
  destruct (Z.eqb_spec (indexOf r c) (-1)); [contradiction | reflexivity].
Qed.

Lemma substring_from_skipn (s : jsstring) (n : Z) :
  0 <= n <= length s ->
  substring_from s (Num n) = skipn (Z.to_nat n) s.
Proof.
  intros Hn. replace n with (length s - (length s - n)) at 1 by lia.
  rewrite substring_tail by lia. f_equal. lia.
Qed.

Lemma substring_app_head (a b : jsstring) (n : Z) :
  0 <= n <= length a ->
  substring (a ++ b) (Num 0) (Num n) = substring a (Num 0) (Num n).
Proof.
  intros Hn. pose proof (length_nonneg b).
  rewrite !substring_head by (rewrite ?length_app; lia).
  rewrite firstn_app.
  replace (Z.to_nat n - List.length a)%nat with 0%nat
    by (unfold length in *; lia).
  cbn [firstn]. apply app_nil_r.
Qed.

Lemma substring_from_app (a b : jsstring) (n : Z) :
  0 <= n <= length a ->
  substring_from (a ++ b) (Num n) = substring_from a (Num n) ++ b.
Proof.
  intros Hn. pose proof (length_nonneg b).
  rewrite !substring_from_skipn by (rewrite ?length_app; lia).
  rewrite skipn_app.
  replace (Z.to_nat n - List.length a)%nat with 0%nat
    by (unfold length in *; lia).
  reflexivity.
Qed.

Section DrainChunks.

(** Every way out of one turn of the [while] loop that goes on goes on with
    [rest]; [go] says what is to be shown of the next turn. *)
Ltac next_turn go :=
  match goal with
  | |- context [match ?j with [] => _ | _ :: _ => _ end] =>
      destruct j; [go|]
  end;
  match goal with
  | |- context [line_fragment ?l] =>
      destruct (line_fragment l); try reflexivity; go
  end.

Lemma drain_fuel_irrelevant (f1 : nat) :
  forall f2 st,
    (List.length (buffer st) < f1)%nat ->
    (List.length (buffer st) < f2)%nat ->
    drain f1 st = drain f2 st.
Proof.
  induction f1 as [|f1 IH]; intros f2 st H1 H2; [lia|].
  destruct f2 as [|f2]; [lia|].
  rewrite !drain_step. cbv zeta.
  destruct (Z.eqb_spec (indexOf (buffer st) NL) (-1)) as [|Hfound];
    [reflexivity|].
  pose proof (rest_shorter (buffer st) _ (indexOf_found _ _ Hfound)) as Hrest.
  next_turn ltac:(apply IH; cbn [buffer]; lia).
Qed.

Lemma drain_buffer_shrinks (fuel : nat) :
  forall st st',
    drain fuel st = Some (Returned st') ->
    (List.length (buffer st') <= List.length (buffer st))%nat.
Proof.
  induction fuel as [|fuel IH]; intros st st'; [discriminate|].
  rewrite drain_step. cbv zeta.
  destruct (Z.eqb_spec (indexOf (buffer st) NL) (-1)) as [|Hfound].
  - intros H. injection H as <-. lia.
  - pose proof (rest_shorter (buffer st) _ (indexOf_found _ _ Hfound)) as Hrest.
    assert (forall fc,
               drain fuel {| fullContent := fc;
                             buffer := substring_from (buffer st)
                                         (Num (indexOf (buffer st) NL + 1)) |}
               = Some (Returned st') ->
               (List.length (buffer st') <= List.length (buffer st))%nat)
      as Hnext.
    { intros fc H. apply IH in H. cbn [buffer] in H. lia. }
    destruct (substring (buffer st) (Num 0) (Num (indexOf (buffer st) NL)));
      [apply Hnext|].
    destruct (line_fragment _); try discriminate; apply Hnext.
Qed.

(** Text that arrives after the buffer can as well arrive once the buffer
    has been drained. *)
Lemma drain_app (fuel : nat) :
  forall fc b c,
    (List.length (b ++ c) < fuel)%nat ->
    drain fuel {| fullContent := fc; buffer := b ++ c |}
    = match drain fuel {| fullContent := fc; buffer := b |} with
      | Some (Returned st') =>
          drain fuel {| fullContent := fullContent st';
                        buffer := buffer st' ++ c |}
      | other => other
      end.
Proof.
  induction fuel as [|fuel IH]; intros fc b c Hlen; [lia|].
  rewrite List.length_app in Hlen.
  rewrite (drain_step fuel {| fullContent := fc; buffer := b |}).
  cbv zeta. cbn [buffer fullContent].
  destruct (Z.eqb_spec (indexOf b NL) (-1)) as [Hnone|Hfound];
    [reflexivity|].
  pose proof (indexOf_found _ _ Hfound) as Hi.
  pose proof (rest_shorter b _ Hi) as Hrest.
  rewrite drain_step. cbv zeta. cbn [buffer fullContent].
  rewrite (indexOf_app_found _ c _ Hfound).
  destruct (Z.eqb_spec (indexOf b NL) (-1)); [contradiction|].
  rewrite substring_app_head by lia.
  rewrite substring_from_app by lia.
  assert (forall fc',
             drain fuel {| fullContent := fc';
                           buffer := substring_from b (Num (indexOf b NL + 1))
                                       ++ c |}
             = match drain fuel
                       {| fullContent := fc';
                          buffer := substring_from b
                                      (Num (indexOf b NL + 1)) |} with
               | Some (Returned st') =>
                   drain (S fuel) {| fullContent := fullContent st';
                                     buffer := buffer st' ++ c |}
               | other => other
               end) as Hnext.
  { intros fc'. rewrite IH by (rewrite List.length_app; lia).
    destruct (drain fuel _) as [[st'| |]|] eqn:E; try reflexivity.
    apply drain_buffer_shrinks in E. cbn [buffer] in E.
    apply drain_fuel_irrelevant; cbn [buffer]; rewrite List.length_app; lia. }
  destruct (substring b (Num 0) (Num (indexOf b NL))); [apply Hnext|].
  destruct (line_fragment _); try reflexivity; apply Hnext.
Qed.

(** From a buffer without a line feed, the chunks one by one do what their
    concatenation does as a single chunk. *)
Lemma consume_as_one_chunk (chunks : list jsstring) :
  forall st,
    indexOf (buffer st) NL = -1 ->
    consume chunks st = on_chunk st (List.concat chunks).
Proof.
  induction chunks as [|chunk rest IH]; intros st Hst.
  - cbn [consume List.concat]. unfold on_chunk. rewrite drain_step. cbv zeta.
    cbn [buffer fullContent]. rewrite app_nil_r, Hst. cbn.
    now destruct st.
  - cbn [consume List.concat]. unfold on_chunk at 2.
    rewrite app_assoc, drain_app by lia.
    unfold on_chunk at 1.
    rewrite (drain_fuel_irrelevant
               (S (List.length (buffer st ++ chunk)))
               (S (List.length ((buffer st ++ chunk) ++ List.concat rest))))
      by (cbn [buffer]; rewrite ?List.length_app; lia).
    destruct (drain _ {| fullContent := fullContent st;
                         buffer := buffer st ++ chunk |})
      as [[st'| |]|] eqn:E; try reflexivity.
    rewrite IH by (now apply drain_leaves_partial_line in E).
    apply drain_buffer_shrinks in E. cbn [buffer] in E.
    unfold on_chunk.
    apply drain_fuel_irrelevant; cbn [buffer];
      rewrite ?List.length_app in *; lia.
Qed.

End DrainChunks.

(** Over decoded texts, the loop sees only their concatenation. *)
Lemma streamContent_of_concat (chunks : list jsstring) :
  streamContent chunks = streamContent [List.concat chunks].
Proof.
  unfold streamContent. cbn [consume].
  rewrite consume_as_one_chunk by reflexivity.
  now destruct (on_chunk _ _) as [[st| |]|].
Qed.

(** X13.  The chunks of a response are buffers, each decoded on its own by
    [chunk.toString()].  Whenever decoding the chunks one by one gives the
    text that decoding the whole stream gives (no chunk ends inside a
    multi-byte character), the content reassembled from the chunks is the
    content reassembled from the whole stream as one chunk, a failure
    included.  Nothing is said of a stream cut inside a character, where
    the decoded texts differ. *)
Theorem streamBuffers_chunking_irrelevant
        (toString : Buffers.Buffer -> jsstring)
        (chunks : list Buffers.Buffer) :
  toString (List.concat chunks) = List.concat (map toString chunks) ->
  Buffers.streamBuffers toString chunks
  = Buffers.streamBuffers toString [List.concat chunks].
Proof.
  intros Hwhole. unfold Buffers.streamBuffers.
  rewrite (streamContent_of_concat (map toString chunks)).
  cbn [map]. now rewrite Hwhole.
Qed.

Lemma streamBuffers_chunking_irrelevant_witness :
  Buffers.streamBuffers Buffers.ascii_text
    [ Buffers.qbytes "{'message':{'cont"; Buffers.qbytes "ent':'Hello!'}}|" ]
  = Buffers.streamBuffers Buffers.ascii_text
      [ List.concat [ Buffers.qbytes "{'message':{'cont";
                      Buffers.qbytes "ent':'Hello!'}}|" ] ].
Proof.
  apply (streamBuffers_chunking_irrelevant
           Buffers.ascii_text
           [ Buffers.qbytes "{'message':{'cont";
             Buffers.qbytes "ent':'Hello!'}}|" ]).
  vm_compute. reflexivity.
Defined.

Lemma indexOf_line (line rest : jsstring) :
  no_line_feed line -> indexOf (line ++ NL :: rest) NL = length line.
Proof.
  unfold no_line_feed.
  induction line as [|x r IH]; cbn [indexOf app]; [reflexivity|].
  destruct (N.eqb x NL); [discriminate|].
  pose proof (indexOf_bounds r NL).
  destruct (Z.eqb_spec (indexOf r NL) (-1)) as [Hr|]; [|lia].
  intros _. rewrite (IH Hr).
  pose proof (length_nonneg r).
  destruct (Z.eqb_spec (length r) (-1)); [lia|].
  unfold length. cbn [List.length]. lia.
Qed.

Lemma drain_lines (tail : jsstring) (lines : list jsstring) :
  Forall no_line_feed lines ->
  no_line_feed tail ->
  forall fc fuel,
    (List.length (Lines.join lines ++ tail) < fuel)%nat ->
    drain fuel {| fullContent := fc; buffer := Lines.join lines ++ tail |}
    = Some match Lines.apply lines fc with
           | Returned s => Returned {| fullContent := s; buffer := tail |}
           | Threw e => Threw e
           | Outside => Outside
           end.
Proof.
  intros Hlines Htail.
  induction Hlines as [|line lines Hline _ IH]; intros fc fuel Hfuel;
    (destruct fuel as [|fuel]; [lia|]); rewrite drain_step; cbv zeta;
    cbn [buffer fullContent].
  - cbn [Lines.join map List.concat app Lines.apply].
    unfold no_line_feed in Htail. now rewrite Htail.
  - unfold Lines.join in *. cbn [map List.concat] in *.
    rewrite <- !app_assoc in *. cbn [app] in *.
    set (rest := List.concat (map (fun l => l ++ [NL]) lines) ++ tail) in *.
    pose proof (length_nonneg line) as Hl.
    pose proof (length_nonneg rest) as Hr.
    assert (length (line ++ NL :: rest) = length line + 1 + length rest)
      as Hall.
    { rewrite length_app. unfold length. cbn [List.length]. lia. }
    rewrite indexOf_line by assumption.
    destruct (Z.eqb_spec (length line) (-1)); [lia|].
    rewrite substring_head by lia.
    rewrite substring_from_skipn by lia.
    replace (Z.to_nat (length line)) with (List.length line + 0)%nat
      by (unfold length; lia).
    rewrite firstn_app_2. cbn [firstn]. rewrite app_nil_r.
    replace (Z.to_nat (length line + 1)) with (List.length line + 1)%nat
      by (unfold length; lia).
    rewrite skipn_app, skipn_all2 by lia.
    replace (List.length line + 1 - List.length line)%nat with 1%nat by lia.
    cbn [skipn app Lines.apply].
    assert (List.length rest < fuel)%nat as Hnext.
    { rewrite List.length_app in Hfuel. cbn [List.length] in Hfuel. lia. }
    destruct line as [|c line']; [now apply IH|].
    destruct (line_fragment (c :: line')); try reflexivity; now apply IH.
Qed.

(** X14.  A stream whose text is a sequence of complete lines, each ended by
    a line feed, followed by a rest without line feed, yields what the lines
    yield one after the other: empty lines are passed over, every other line
    is parsed and adds its fragment, the first line that fails ends the
    reading, and the rest is not read. *)
Theorem streamContent_line_by_line
        (chunks lines : list jsstring) (tail : jsstring) :
  Forall no_line_feed lines ->
  no_line_feed tail ->
  List.concat chunks = Lines.join lines ++ tail ->
  streamContent chunks = Some (Lines.apply lines []).
Proof.
  intros Hlines Htail Htext. unfold streamContent.
  rewrite consume_as_one_chunk by reflexivity.
  unfold on_chunk. cbn [buffer fullContent app]. rewrite Htext.
  rewrite (drain_lines tail lines Hlines Htail) by lia.
  now destruct (Lines.apply lines []).
Qed.

Lemma streamContent_line_by_line_witness :
  streamContent [ qlit "{'message':{'content':'Hel";
                  qlit "lo'}}||{'message':{'content':' world'}}|{'done" ]
  = Some (Lines.apply [ qlit "{'message':{'content':'Hello'}}"; [];
                        qlit "{'message':{'content':' world'}}" ] []).
Proof.
  apply (streamContent_line_by_line
           [ qlit "{'message':{'content':'Hel";
             qlit "lo'}}||{'message':{'content':' world'}}|{'done" ]
           [ qlit "{'message':{'content':'Hello'}}"; [];
             qlit "{'message':{'content':' world'}}" ]
           (qlit "{'done")).
  - repeat constructor.
  - reflexivity.
  - reflexivity.
Defined.

(** ** Chat completion: results and failures *)

Lemma line_fragment_fails (line : jsstring) (e : Thrown) :
  line_fragment line = Fails e -> stream_error e.
Proof.
  unfold line_fragment, stream_error.
  destruct (Json.parse line) as [[ | | | | |members]|];
    try discriminate; try (intros H; injection H as <-; tauto).
  destruct (Json.member (lit "message") members) as [[ | | | | |fields]|];
    try discriminate.
  destruct (Json.member (lit "content") fields) as [[|[]| |[]| |]|];
    discriminate.
Qed.

Lemma drain_throws (fuel : nat) :
  forall st e, drain fuel st = Some (Threw e) -> stream_error e.
Proof.
  induction fuel as [|fuel IH]; intros st e; [discriminate|].
  rewrite drain_step. cbv zeta.
  destruct (indexOf (buffer st) NL =? -1); [discriminate|].
  destruct (substring (buffer st) (Num 0) (Num (indexOf (buffer st) NL)))
    as [|c l]; [apply IH|].
  destruct (line_fragment (c :: l)) eqn:E; try discriminate; try apply IH.
  intros H. injection H as <-. now apply line_fragment_fails in E.
Qed.

Lemma streamContent_throws (chunks : list jsstring) (e : Thrown) :
  streamContent chunks = Some (Threw e) -> stream_error e.
Proof.
  unfold streamContent.
  rewrite consume_as_one_chunk by reflexivity. unfold on_chunk.
  destruct (drain _ _) as [[st|e'|]|] eqn:E; try discriminate.
  intros H. injection H as <-. now apply drain_throws in E.
Qed.

Lemma attempts_throws {R : Type} (cfg : Config)
      (requestFn : nat -> RequestOptions -> RequestError + R)
      (options : RequestOptions) (cid : jsstring) (n : nat) :
  forall attempt last w e w',
    (n = 0%nat -> last <> None) ->
    attempts cfg requestFn options cid n attempt last w = (Threw e, w') ->
    retry_error cfg options cid e.
Proof.
  unfold retry_error.
  induction n as [|n IH]; intros attempt last w e w' Hlast.
  - cbn [attempts]. destruct last as [r|]; [|now destruct Hlast].
    intros H. injection H as <- _. left. now exists r.
  - rewrite attempts_step.
    destruct (requestFn _ _) as [r|v]; [|discriminate].
    destruct (attempt =? maxRetries cfg).
    + destruct (isTimeoutError r); intros H; injection H as <- _;
        [now right | left; now exists r].
    + apply IH. discriminate.
Qed.

Section ChatCompletionFacts.

Variable cfg : Config.
Variable env : Service.Env.
Variable backend : Service.Backend.
Variable params : Service.OllamaChatRequest.
Variable context : Service.ServiceContext.

(** The request function the chat completion hands to [retryRequest]. *)
Let requestFn (n : nat) (options : RequestOptions)
  : RequestError + list jsstring :=
  backend n
    {| Service.url := lit "/api/chat";
       Service.body :=
         {| Service.body_model :=
              match Service.model params with
              | Some m => m
              | None => Service.string_or (Service.DEFAULT_MODEL env)
                                          (lit "llama2")
              end;
            Service.body_messages := Service.messages params;
            Service.body_temperature :=
              match Service.temperature params with
              | Some t => t
              | None => match Service.DEFAULT_TEMPERATURE env with
                        | Some t => t
                        | None => 7 # 10
                        end
              end;
            Service.body_num_predict :=
              match Service.max_tokens params with
              | Some n => n
              | None => match Service.DEFAULT_MAX_TOKENS env with
                        | Some n => n
                        | None => 2048
                        end
              end;
            Service.body_stream := true |};
       Service.post_options := options;
       Service.responseType_stream := true |}.

(** The chat completion of a non-empty conversation, in terms of its two
    stages. *)
Lemma generateChatCompletion_stages (w : World) :
  Service.messages params <> [] ->
  Service.generateChatCompletion cfg env backend params context w
  = match retryRequest cfg requestFn {| opt_timeout := None |}
                       (Service.correlationId context) w with
    | (Threw e, w') =>
        Some (Threw (Service.rethrow (Service.correlationId context) e), w')
    | (Outside, w') => Some (Outside, w')
    | (Returned chunks, w') =>
        match streamContent chunks with
        | None => None
        | Some (Threw e) =>
            Some (Threw (Service.rethrow (Service.correlationId context) e),
                  w')
        | Some Outside => Some (Outside, w')
        | Some (Returned fullContent) =>
            Some (Returned
                    {| Service.success := true;
                       Service.data_message_content := fullContent;
                       Service.result_model :=
                         match Service.model params with
                         | Some m => m
                         | None =>
                             Service.string_or (Service.DEFAULT_MODEL env)
                                               (lit "llama2")
                         end;
                       Service.usage :=
                         {| Service.prompt_tokens :=
                              countTokens_messages (Service.messages params);
                            Service.completion_tokens := length fullContent;
                            Service.total_tokens :=
                              countTokens_messages (Service.messages params)
                              + length fullContent |} |}, w')
        end
    end.
Proof.
  intros Hmessages. unfold Service.generateChatCompletion.
  destruct (Service.messages params) as [|m l] eqn:E; [congruence|].
  reflexivity.
Qed.

Lemma rethrow_typed (cid : jsstring) (e : Thrown) :
  retry_error cfg {| opt_timeout := None |} cid e \/ stream_error e ->
  instanceof_AppError (Service.rethrow cid e) = true /\
  correlationId_of (Service.rethrow cid e) = Some cid.
Proof.
  intros [[[r ->] | ->] | [-> | ->]]; now split.
Qed.

End ChatCompletionFacts.

(** X15.  With at least one attempt configured, whatever the chat completion
    of the TypeScript service throws is an [AppError] (the validation error,
    a [TimeoutError] or an [ExternalServiceError]) that carries the
    correlation id of the call. *)
Theorem generateChatCompletion_errors_are_typed
        cfg env backend params context (w w' : World) (e : Thrown) :
  0 < maxRetries cfg ->
  Service.generateChatCompletion cfg env backend params context w
  = Some (Threw e, w') ->
  instanceof_AppError e = true /\
  correlationId_of e = Some (Service.correlationId context).
Proof.
  intros Hpos.
  destruct (Service.messages params) as [|m l] eqn:Hmessages.
  - rewrite validation_before_backend by assumption.
    intros H. injection H as <- _. now split.
  - rewrite generateChatCompletion_stages by congruence.
    unfold retryRequest.
    destruct (Z.to_nat (maxRetries cfg)) as [|n] eqn:En; [lia|].
    destruct (attempts _ _ _ _ _ _ _ _) as [[chunks|e0|] w0] eqn:Hretry.
    + destruct (streamContent chunks) as [[s|e1|]|] eqn:Hstream;
        try discriminate.
      intros H. injection H as <- _.
      apply rethrow_typed with (cfg := cfg). right.
      now apply streamContent_throws in Hstream.
    + intros H. injection H as <- _.
      apply rethrow_typed with (cfg := cfg). left.
      apply attempts_throws in Hretry; [exact Hretry | discriminate].
    + discriminate.
Qed.

Lemma generateChatCompletion_errors_are_typed_witness :
  instanceof_AppError
    (ExternalServiceError (lit "Chat completion failed") (lit "req-1")
                          (lit "Ollama") (Raw Inputs.bad_request)) = true /\
  correlationId_of
    (ExternalServiceError (lit "Chat completion failed") (lit "req-1")
                          (lit "Ollama") (Raw Inputs.bad_request))
  = Some (lit "req-1").
Proof.
  apply (generateChatCompletion_errors_are_typed
           Inputs.default_config Service.no_env
           (fun _ _ => inl Inputs.bad_request)
           (Service.mkChatRequest None Inputs.hi None None None)
           (Service.mkContext (lit "req-1")) start
           {| calls := 3; sleeps := [1000; 2000] |}).
  - reflexivity.
  - vm_compute. reflexivity.
Defined.

(** X16.  Whenever the chat completion of the TypeScript service returns,
    the result says success, its usage counts the estimate of the messages
    as given, the length of the content in code units and their sum, and at
    least one and at most [maxRetries] backend calls were made for it. *)
Theorem generateChatCompletion_result_consistent
        cfg env backend params context (w w' : World)
        (result : Service.ChatResult) :
  Service.generateChatCompletion cfg env backend params context w
  = Some (Returned result, w') ->
  Service.success result = true /\
  Service.prompt_tokens (Service.usage result)
  = countTokens_messages (Service.messages params) /\
  Service.completion_tokens (Service.usage result)
  = length (Service.data_message_content result) /\
  Service.total_tokens (Service.usage result)
  = Service.prompt_tokens (Service.usage result)
    + Service.completion_tokens (Service.usage result) /\
  (calls w < calls w' <= calls w + Z.to_nat (maxRetries cfg))%nat.
Proof.
  destruct (Service.messages params) as [|m l] eqn:Hmessages.
  - rewrite validation_before_backend by assumption. discriminate.
  - rewrite generateChatCompletion_stages by congruence.
    unfold retryRequest.
    destruct (Z.to_nat (maxRetries cfg)) as [|n] eqn:En; [discriminate|].
    match goal with
    | |- context [attempts cfg ?f ?o ?c (S n) 1 None w] =>
        destruct (attempts_bounded cfg f o c n 1 None w)
          as (extra & Hcalls & _); [lia | lia |];
        destruct (attempts cfg f o c (S n) 1 None w)
          as [[chunks|e0|] w0] eqn:Hretry; try discriminate
    end.
    cbv zeta in Hcalls. cbn [snd] in Hcalls.
    destruct (streamContent chunks) as [[s|e1|]|]; try discriminate.
    intros H. injection H as <- <-. rewrite Hmessages.
    cbn [Service.success Service.usage Service.prompt_tokens
         Service.completion_tokens Service.total_tokens
         Service.data_message_content].
    repeat split; lia.
Qed.

Lemma generateChatCompletion_result_consistent_witness :
  let result :=
    {| Service.success := true;
       Service.data_message_content := lit "Hello!";
       Service.result_model := lit "llama2";
       Service.usage :=
         {| Service.prompt_tokens := 2;
            Service.completion_tokens := 6;
            Service.total_tokens := 8 |} |} in
  Service.success result = true /\
  Service.prompt_tokens (Service.usage result)
  = countTokens_messages Inputs.hi /\
  Service.completion_tokens (Service.usage result)
  = length (Service.data_message_content result) /\
  Service.total_tokens (Service.usage result)
  = Service.prompt_tokens (Service.usage result)
    + Service.completion_tokens (Service.usage result) /\
  (0 < 1 <= 0 + 3)%nat.
Proof.
  apply (generateChatCompletion_result_consistent
           Inputs.default_config Service.no_env
           (fun _ _ => inr [Inputs.hello_line])
           (Service.mkChatRequest None Inputs.hi None None None)
           (Service.mkContext (lit "req-1")) start
           {| calls := 1; sleeps := [] |}).
  vm_compute. reflexivity.
Defined.

(** X17.  When every backend call of a chat completion fails, the completion
    fails after [maxRetries] calls: with the [TimeoutError] of the retry
    loop, passed on as it is, when the last failure is timeout-classified,
    and otherwise with an [ExternalServiceError] for the service Ollama that
    wraps the raw error of the last call. *)
Theorem generateChatCompletion_when_backend_fails
        cfg env (err : nat -> RequestError) params context :
  Service.messages params <> [] ->
  0 < maxRetries cfg ->
  Service.generateChatCompletion cfg env (fun n _ => inl (err n))
                                 params context start
  = Some (Threw
            (if isTimeoutError (err (Z.to_nat (maxRetries cfg) - 1)%nat)
             then TimeoutError (timeout_text cfg)
                               (Service.correlationId context)
                               (inject_Z (timeout cfg))
             else ExternalServiceError
                    (lit "Chat completion failed")
                    (Service.correlationId context) (lit "Ollama")
                    (Raw (err (Z.to_nat (maxRetries cfg) - 1)%nat))),
          {| calls := Z.to_nat (maxRetries cfg);
             sleeps := delays 1 (Z.to_nat (maxRetries cfg) - 1) |}).
Proof.
  intros Hmessages Hpos.
  rewrite generateChatCompletion_stages by assumption.
  unfold retryRequest.
  match goal with
  | |- context [attempts cfg ?f ?o ?c _ 1 None start] =>
      destruct (attempts_all_fail cfg f o c
                  (fun i p => ex_intro _ (err i) eq_refl)
                  (Z.to_nat (maxRetries cfg) - 1) 0%nat None start)
        as (e & He & Hrun); [lia | reflexivity |]
  end.
  replace (S (Z.to_nat (maxRetries cfg) - 1)) with (Z.to_nat (maxRetries cfg))
    in Hrun by lia.
  change (Z.of_nat 0 + 1) with 1 in Hrun.
  cbn [plus] in He. injection He as <-.
  rewrite Hrun. cbn [app sleeps start].
  destruct (isTimeoutError _); reflexivity.
Qed.

Lemma generateChatCompletion_when_backend_fails_witness :
  Service.generateChatCompletion
    Inputs.default_config Service.no_env (fun _ _ => inl Inputs.timed_out)
    (Service.mkChatRequest None Inputs.hi None None None)
    (Service.mkContext (lit "req-1")) start
  = Some (Threw (TimeoutError (timeout_text Inputs.default_config)
                              (lit "req-1") (inject_Z 30000)),
          {| calls := 3; sleeps := [1000; 2000] |}).
Proof.
  apply (generateChatCompletion_when_backend_fails
           Inputs.default_config Service.no_env (fun _ => Inputs.timed_out)
           (Service.mkChatRequest None Inputs.hi None None None)
           (Service.mkContext (lit "req-1"))).
  - discriminate.
  - reflexivity.
Defined.

(** X18.  A failure while the response stream is read (a line that is not
    JSON, or the JSON [null]) is not retried: after the one backend call
    that delivered the stream the chat completion fails with an
    [ExternalServiceError] wrapping that failure, and the content received
    before the bad line is lost. *)
Theorem generateChatCompletion_stream_failure
        cfg env backend params context (w : World)
        (chunks : list jsstring) (e : Thrown) :
  Service.messages params <> [] ->
  0 < maxRetries cfg ->
  (forall request, backend (calls w) request = inr chunks) ->
  streamContent chunks = Some (Threw e) ->
  Service.generateChatCompletion cfg env backend params context w
  = Some (Threw (ExternalServiceError
                   (lit "Chat completion failed")
                   (Service.correlationId context) (lit "Ollama") e),
          invoked w).
Proof.
  intros Hmessages Hpos Hbackend Hstream.
  rewrite generateChatCompletion_stages by assumption.
  unfold retryRequest.
  destruct (Z.to_nat (maxRetries cfg)) as [|n] eqn:En; [lia|].
  rewrite attempts_step, Hbackend, Hstream.
  now destruct (streamContent_throws _ _ Hstream) as [-> | ->].
Qed.

Lemma generateChatCompletion_stream_failure_witness :
  Service.generateChatCompletion
    Inputs.default_config Service.no_env
    (fun _ _ => inr [Inputs.hello_line; qlit "not json|"])
    (Service.mkChatRequest None Inputs.hi None None None)
    (Service.mkContext (lit "req-1")) start
  = Some (Threw (ExternalServiceError
                   (lit "Chat completion failed") (lit "req-1")
                   (lit "Ollama") SyntaxError),
          {| calls := 1; sleeps := [] |}).
Proof.
  apply (generateChatCompletion_stream_failure
           Inputs.default_config Service.no_env
           (fun _ _ => inr [Inputs.hello_line; qlit "not json|"])
           (Service.mkChatRequest None Inputs.hi None None None)
           (Service.mkContext (lit "req-1")) start
           [Inputs.hello_line; qlit "not json|"] SyntaxError).
  - discriminate.
  - reflexivity.
  - reflexivity.
  - vm_compute. reflexivity.
Defined.

(** ** Text completion *)

Lemma response_length_echo (body : TextCompletion.TextBody) :
  TextCompletion.response_length (TextCompletion.echo body)
  = Returned (length (TextCompletion.body_prompt body)).
Proof. reflexivity. Qed.

(** X19.  A text completion whose prompt is empty fails before any backend
    call: in the TypeScript service with an [AppError] of status 400 and
    code VALIDATION_ERROR tagged with the correlation id, in the JavaScript
    service with a plain [Error]. *)
Theorem empty_prompt_fails_validation
        cfg env backend params context (w : World)
        (js_maxRetries : Z) (js_backend : TextCompletion.LegacyBackend) :
  TextCompletion.prompt params = [] ->
  TextCompletion.generateTextCompletion cfg env backend params context w
  = (Threw (AppError (lit "Prompt is required") 400 (lit "VALIDATION_ERROR")
                     (Service.correlationId context)), w)
  /\
  TextCompletion.legacy_generateTextCompletion js_maxRetries env js_backend
                                               params w
  = (Threw (PlainError (lit "Prompt is required")), w).
Proof.
  intros Hempty.
  unfold TextCompletion.generateTextCompletion,
    TextCompletion.legacy_generateTextCompletion.
  rewrite Hempty. split; reflexivity.
Qed.

Lemma empty_prompt_fails_validation_witness :
  TextCompletion.generateTextCompletion
    Inputs.default_config Service.no_env
    (fun _ request => inr (TextCompletion.echo (TextCompletion.body request)))
    (TextCompletion.mkTextRequest None [] None None None)
    (Service.mkContext (lit "req-1")) start
  = (Threw (AppError (lit "Prompt is required") 400 (lit "VALIDATION_ERROR")
                     (lit "req-1")), start).
Proof.
  apply (empty_prompt_fails_validation
           Inputs.default_config Service.no_env
           (fun _ request =>
              inr (TextCompletion.echo (TextCompletion.body request)))
           (TextCompletion.mkTextRequest None [] None None None)
           (Service.mkContext (lit "req-1")) start
           3 (fun _ body => inr (TextCompletion.echo body))).
  reflexivity.
Defined.

(** X20.  The JavaScript text completion sends the backend the prompt as
    [processLongPrompt] fits it to the model, and still counts
    [prompt_tokens] on the prompt as it was given: against a backend that
    answers with the prompt it received, the response is the fitted prompt
    and [completion_tokens] is its length, after one call. *)
Theorem legacy_text_completion_sends_fitted_prompt
        (maxRetries : Z) env (m prompt : jsstring) temperature max_tokens stream
        (w : World) :
  0 < maxRetries ->
  prompt <> [] ->
  TextCompletion.legacy_generateTextCompletion
    maxRetries env (fun _ body => inr (TextCompletion.echo body))
    (TextCompletion.mkTextRequest (Some m) prompt temperature max_tokens stream)
    w
  = (Returned
       {| TextCompletion.success := true;
          TextCompletion.data :=
            Json.JObject
              [ (lit "response", Json.JString (processLongPrompt prompt m)) ];
          TextCompletion.result_model := m;
          TextCompletion.usage :=
            {| Service.prompt_tokens := countTokens prompt;
               Service.completion_tokens :=
                 length (processLongPrompt prompt m);
               Service.total_tokens :=
                 countTokens prompt + length (processLongPrompt prompt m) |}
       |},
     invoked w).
Proof.
  intros Hpos Hprompt.
  unfold TextCompletion.legacy_generateTextCompletion, Legacy.retryRequest.
  cbn [TextCompletion.prompt TextCompletion.model].
  destruct prompt as [|c prompt']; [congruence|].
  destruct (Z.to_nat maxRetries) as [|n] eqn:En; [lia|].
  rewrite legacy_attempts_step, response_length_echo. reflexivity.
Qed.

Lemma legacy_text_completion_sends_fitted_prompt_witness :
  TextCompletion.legacy_generateTextCompletion
    3 Service.no_env (fun _ body => inr (TextCompletion.echo body))
    (TextCompletion.mkTextRequest
       (Some (lit "phi")) (Inputs.letters 6000) None None None)
    start
  = (Returned
       {| TextCompletion.success := true;
          TextCompletion.data :=
            Json.JObject
              [ (lit "response",
                 Json.JString
                   (processLongPrompt (Inputs.letters 6000) (lit "phi"))) ];
          TextCompletion.result_model := lit "phi";
          TextCompletion.usage :=
            {| Service.prompt_tokens := countTokens (Inputs.letters 6000);
               Service.completion_tokens :=
                 length (processLongPrompt (Inputs.letters 6000) (lit "phi"));
               Service.total_tokens :=
                 countTokens (Inputs.letters 6000)
                 + length (processLongPrompt (Inputs.letters 6000)
                                             (lit "phi")) |} |},
     invoked start).
Proof.
  apply (legacy_text_completion_sends_fitted_prompt
           3 Service.no_env (lit "phi") (Inputs.letters 6000)
           None None None start).
  - reflexivity.
  - vm_compute. discriminate.
Defined.

(** X21.  The TypeScript text completion sends the prompt as it was given,
    whatever its size: against a backend that answers with the prompt it
    received, the response is the prompt itself and [completion_tokens] is
    its length, after one call. *)
Theorem text_completion_sends_prompt_unchanged
        cfg env (m prompt : jsstring) temperature max_tokens stream
        context (w : World) :
  0 < maxRetries cfg ->
  prompt <> [] ->
  TextCompletion.generateTextCompletion
    cfg env
    (fun _ request => inr (TextCompletion.echo (TextCompletion.body request)))
    (TextCompletion.mkTextRequest (Some m) prompt temperature max_tokens stream)
    context w
  = (Returned
       {| TextCompletion.success := true;
          TextCompletion.data :=
            Json.JObject [ (lit "response", Json.JString prompt) ];
          TextCompletion.result_model := m;
          TextCompletion.usage :=
            {| Service.prompt_tokens := countTokens prompt;
               Service.completion_tokens := length prompt;
               Service.total_tokens := countTokens prompt + length prompt |}
       |},
     invoked w).
Proof.
  intros Hpos Hprompt.
  unfold TextCompletion.generateTextCompletion, retryRequest.
  cbn [TextCompletion.prompt TextCompletion.model].
  destruct prompt as [|c prompt']; [congruence|].
  destruct (Z.to_nat (maxRetries cfg)) as [|n] eqn:En; [lia|].
  rewrite attempts_step. cbn [TextCompletion.body].
  rewrite response_length_echo. reflexivity.
Qed.

Lemma text_completion_sends_prompt_unchanged_witness :
  TextCompletion.generateTextCompletion
    Inputs.default_config Service.no_env
    (fun _ request => inr (TextCompletion.echo (TextCompletion.body request)))
    (TextCompletion.mkTextRequest
       (Some (lit "phi")) (Inputs.letters 6000) None None None)
    (Service.mkContext (lit "req-1")) start
  = (Returned
       {| TextCompletion.success := true;
          TextCompletion.data :=
            Json.JObject
              [ (lit "response", Json.JString (Inputs.letters 6000)) ];
          TextCompletion.result_model := lit "phi";
          TextCompletion.usage :=
            {| Service.prompt_tokens := countTokens (Inputs.letters 6000);
               Service.completion_tokens := length (Inputs.letters 6000);
               Service.total_tokens :=
                 countTokens (Inputs.letters 6000)
                 + length (Inputs.letters 6000) |} |},
     invoked start).
Proof.
  apply (text_completion_sends_prompt_unchanged
           Inputs.default_config Service.no_env (lit "phi")
           (Inputs.letters 6000) None None None
           (Service.mkContext (lit "req-1")) start).
  - reflexivity.
  - vm_compute. discriminate.
Defined.

(** ** Error helpers *)

(** X22.  [convertToAppError] turns every error into an operational
    [AppError]: an [AppError] is returned as it is, with the correlation id
    it already has; any other error becomes an [AppError] of status 500 and
    code INTERNAL_ERROR with the given correlation id; converting the result
    again, with whatever correlation id, changes nothing. *)
Theorem convertToAppError_normalises
        (engine_message : Thrown -> jsstring)
        (error : Thrown) (correlationId other : jsstring) :
  error <> ThrownUndefined ->
  exists converted,
    ErrorHelpers.convertToAppError engine_message error correlationId
    = Returned converted /\
    ErrorHelpers.isOperationalError converted = true /\
    ErrorHelpers.convertToAppError engine_message converted other
    = Returned converted /\
    (instanceof_AppError error = true -> converted = error) /\
    (instanceof_AppError error = false ->
     statusCode_of converted = Some 500 /\
     code_of converted = Some (lit "INTERNAL_ERROR") /\
     correlationId_of converted = Some correlationId).
Proof.
  intros Hdefined. unfold ErrorHelpers.convertToAppError.
  destruct (instanceof_AppError error) eqn:Happ.
  - exists error. unfold ErrorHelpers.isOperationalError. rewrite Happ.
    repeat split; congruence.
  - destruct error; try discriminate; try congruence;
      (eexists; repeat split; discriminate).
Qed.

Lemma convertToAppError_normalises_witness :
  exists converted,
    ErrorHelpers.convertToAppError (fun _ => lit "Unexpected token")
                                   (Raw Inputs.timed_out) (lit "req-1")
    = Returned converted /\
    ErrorHelpers.isOperationalError converted = true.
Proof.
  destruct (convertToAppError_normalises
              (fun _ => lit "Unexpected token") (Raw Inputs.timed_out)
              (lit "req-1") (lit "req-2"))
    as (converted & Hc & Hop & _); [discriminate|].
  exists converted. split; assumption.
Defined.

(** ** Text cleaning *)

Import CleanShape.

Section CleanTextFacts.

Local Open Scope N_scope.

Lemma replace_crlf_length_upto (n : nat) :
  forall s, (List.length s <= n)%nat ->
            (List.length (Document.replace_crlf s) <= List.length s)%nat.
Proof.
  induction n as [|n IH]; intros [|c r] Hn; cbn [List.length] in *;
    try reflexivity; try lia; cbn [Document.replace_crlf].
  destruct (c =? 13); [|cbn [List.length]; specialize (IH r); lia].
  destruct r as [|d r']; [reflexivity|].
  destruct (d =? 10); cbn [List.length] in *.
  - specialize (IH r'). lia.
  - specialize (IH (d :: r')). cbn [List.length] in IH. lia.
Qed.

Lemma collapse_newlines_length (s : jsstring) :
  forall run, (List.length (Document.collapse_newlines run s)
               <= List.length s)%nat.
Proof.
  induction s as [|c r IH]; intros run; cbn [Document.collapse_newlines];
    [reflexivity|].
  destruct (c =? 10); [destruct (run <? 2)%nat|]; cbn [List.length];
    [specialize (IH (S run)) | specialize (IH run) | specialize (IH 0%nat)];
    lia.
Qed.

Lemma collapse_blanks_length (s : jsstring) :
  forall in_run, (List.length (Document.collapse_blanks in_run s)
                  <= List.length s)%nat.
Proof.
  induction s as [|c r IH]; intros in_run; cbn [Document.collapse_blanks];
    [reflexivity|].
  destruct (Document.is_blank c); [destruct in_run|]; cbn [List.length];
    [specialize (IH true) | specialize (IH true) | specialize (IH false)];
    lia.
Qed.

(** What [drop_spaces] drops is white space in front of what it keeps. *)
Lemma drop_spaces_split (s : jsstring) :
  exists dropped, s = dropped ++ Document.drop_spaces s.
Proof.
  induction s as [|c r [dropped IH]]; [now exists []|].
  cbn [Document.drop_spaces]. destruct (is_space c).
  - exists (c :: dropped). cbn [app]. now rewrite <- IH.
  - now exists [].
Qed.

Lemma drop_spaces_starts_clean (s : jsstring) :
  starts_clean (Document.drop_spaces s).
Proof.
  induction s as [|c r IH]; [exact I|].
  cbn [Document.drop_spaces]. destruct (is_space c) eqn:E; [exact IH|].
  exact E.
Qed.

(** What [trim] keeps lies between what it drops. *)
Lemma trim_split (s : jsstring) :
  exists front back, s = front ++ Document.trim s ++ back.
Proof.
  unfold Document.trim.
  destruct (drop_spaces_split s) as [front Hfront].
  destruct (drop_spaces_split (rev (Document.drop_spaces s))) as [back Hback].
  exists front, (rev back).
  rewrite <- rev_app_distr, <- Hback, rev_involutive. exact Hfront.
Qed.

Lemma trim_length (s : jsstring) :
  (List.length (Document.trim s) <= List.length s)%nat.
Proof.
  destruct (trim_split s) as (front & back & H).
  rewrite H at 2. rewrite !List.length_app. lia.
Qed.

Lemma trim_trimmed (s : jsstring) : trimmed (Document.trim s).
Proof.
  unfold trimmed, Document.trim. rewrite rev_involutive.
  split; [|apply drop_spaces_starts_clean].
  destruct (drop_spaces_split (rev (Document.drop_spaces s))) as [back Hback].
  pose proof (drop_spaces_starts_clean s) as Hhead.
  apply (f_equal (@rev _)) in Hback.
  rewrite rev_involutive, rev_app_distr in Hback.
  destruct (rev (Document.drop_spaces (rev (Document.drop_spaces s))))
    as [|c l]; [exact I|].
  rewrite Hback in Hhead. exact Hhead.
Qed.

Lemma trimmed_fixed (s : jsstring) : trimmed s -> Document.trim s = s.
Proof.
  intros [Hhead Hlast]. unfold Document.trim.
  assert (forall u, starts_clean u -> Document.drop_spaces u = u) as Hfix.
  { intros [|c r] Hu; [reflexivity|]. cbn in *. now rewrite Hu. }
  rewrite (Hfix s Hhead), (Hfix (rev s) Hlast). apply rev_involutive.
Qed.

(** *** Carriage returns and tabs *)

Lemma replace_cr_no_cr (s : jsstring) : no_cr (Document.replace_cr s).
Proof.
  unfold no_cr, Document.replace_cr. apply Forall_map, Forall_forall.
  intros c _. destruct (N.eqb_spec c 13); [discriminate | assumption].
Qed.

Lemma collapse_newlines_Forall (P : char16 -> Prop) (s : jsstring) :
  Forall P s -> forall run, Forall P (Document.collapse_newlines run s).
Proof.
  induction 1 as [|c r Hc _ IH]; intros run; cbn [Document.collapse_newlines];
    [constructor|].
  destruct (c =? 10); [destruct (run <? 2)%nat|]; try constructor; auto.
Qed.

Lemma collapse_blanks_Forall (P : char16 -> Prop) (s : jsstring) :
  P 32 -> Forall P s ->
  forall in_run, Forall P (Document.collapse_blanks in_run s).
Proof.
  intros Hspace. induction 1 as [|c r Hc _ IH]; intros in_run;
    cbn [Document.collapse_blanks]; [constructor|].
  destruct (Document.is_blank c); [destruct in_run|]; try constructor; auto.
Qed.

Lemma collapse_blanks_no_tab (s : jsstring) :
  forall in_run, no_tab (Document.collapse_blanks in_run s).
Proof.
  unfold no_tab.
  induction s as [|c r IH]; intros in_run; cbn [Document.collapse_blanks];
    [constructor|].
  destruct (Document.is_blank c) eqn:E; [destruct in_run|];
    try constructor; auto; try discriminate.
  intros ->. discriminate E.
Qed.

Lemma trim_Forall (P : char16 -> Prop) (s : jsstring) :
  Forall P s -> Forall P (Document.trim s).
Proof.
  intros H. destruct (trim_split s) as (front & back & Hs).
  rewrite Hs in H. apply Forall_app in H. destruct H as [_ H].
  now apply Forall_app in H.
Qed.

(** *** Runs of line feeds *)

Lemma newlines_ok_weaken (s : jsstring) :
  forall run run', (run' <= run)%nat ->
                   newlines_ok run s -> newlines_ok run' s.
Proof.
  destruct s as [|c r]; intros run run' Hle; cbn [newlines_ok]; [trivial|].
  destruct (N.eqb c 10); [|trivial].
  intros [Hrun Hrest]. split; [lia|].
  revert Hrest. generalize (S run), (S run'), (le_n_S _ _ Hle).
  clear. induction r as [|c r IH]; intros run run' Hle; cbn [newlines_ok];
    [trivial|].
  destruct (N.eqb c 10); [|trivial].
  intros [Hrun Hrest]. split; [lia|].
  apply (IH (S run) (S run')); [lia | exact Hrest].
Qed.

Lemma newlines_ok_suffix (a b : jsstring) :
  forall run, newlines_ok run (a ++ b) -> newlines_ok 0 b.
Proof.
  induction a as [|c r IH]; intros run; cbn [app].
  - apply newlines_ok_weaken. lia.
  - cbn [newlines_ok]. destruct (N.eqb c 10).
    + intros [_ H]. now apply IH in H.
    + apply IH.
Qed.

Lemma newlines_ok_prefix (a b : jsstring) :
  forall run, newlines_ok run (a ++ b) -> newlines_ok run a.
Proof.
  induction a as [|c r IH]; intros run; cbn [app newlines_ok]; [trivial|].
  destruct (N.eqb c 10).
  - intros [Hrun H]. split; [exact Hrun | now apply IH in H].
  - apply IH.
Qed.

Lemma collapse_newlines_ok (s : jsstring) :
  forall run, (run <= 2)%nat ->
              newlines_ok run (Document.collapse_newlines run s).
Proof.
  induction s as [|c r IH]; intros run Hrun;
    cbn [Document.collapse_newlines]; [exact I|].
  destruct (c =? 10) eqn:E.
  - destruct (Nat.ltb_spec run 2).
    + cbn [newlines_ok]. rewrite E. split; [assumption | apply IH; lia].
    + now apply IH.
  - cbn [newlines_ok]. rewrite E. apply IH. lia.
Qed.

Lemma collapse_newlines_fixed (s : jsstring) :
  forall run, newlines_ok run s -> Document.collapse_newlines run s = s.
Proof.
  induction s as [|c r IH]; intros run; cbn [newlines_ok
    Document.collapse_newlines]; [reflexivity|].
  destruct (c =? 10).
  - intros [Hrun H]. destruct (Nat.ltb_spec run 2); [|lia].
    now rewrite (IH _ H).
  - intros H. now rewrite (IH _ H).
Qed.

Lemma is_blank_not_newline (c : char16) :
  Document.is_blank c = true -> N.eqb c 10 = false.
Proof.
  unfold Document.is_blank.
  destruct (N.eqb_spec c 32) as [->|]; [reflexivity|].
  destruct (N.eqb_spec c 9) as [->|]; [reflexivity | discriminate].
Qed.

Lemma collapse_blanks_newlines_ok (s : jsstring) :
  forall run in_run,
    (in_run = true -> run = 0%nat) ->
    newlines_ok run s ->
    newlines_ok run (Document.collapse_blanks in_run s).
Proof.
  induction s as [|c r IH]; intros run in_run Hstate;
    cbn [Document.collapse_blanks newlines_ok]; [trivial|].
  destruct (Document.is_blank c) eqn:Hb.
  - rewrite (is_blank_not_newline c Hb). intros H. destruct in_run.
    + rewrite (Hstate eq_refl). now apply IH.
    + cbn [newlines_ok]. change (N.eqb 32 10) with false. cbv iota.
      now apply IH.
  - cbn [newlines_ok]. destruct (N.eqb c 10).
    + intros [Hrun H]. split; [exact Hrun | apply IH; [discriminate | exact H]].
    + apply IH. discriminate.
Qed.

(** *** Runs of blanks *)

Lemma blanks_ok_weaken (s : jsstring) :
  blanks_ok true s -> blanks_ok false s.
Proof.
  destruct s as [|c r]; cbn [blanks_ok]; [trivial|].
  destruct (Document.is_blank c); [|trivial].
  intros (_ & H & _). discriminate H.
Qed.

Lemma blanks_ok_suffix (a b : jsstring) :
  forall in_run, blanks_ok in_run (a ++ b) -> blanks_ok false b.
Proof.
  induction a as [|c r IH]; intros in_run; cbn [app].
  - destruct in_run; [apply blanks_ok_weaken | trivial].
  - cbn [blanks_ok]. destruct (Document.is_blank c).
    + intros (_ & _ & H). now apply IH in H.
    + apply IH.
Qed.

Lemma blanks_ok_prefix (a b : jsstring) :
  forall in_run, blanks_ok in_run (a ++ b) -> blanks_ok in_run a.
Proof.
  induction a as [|c r IH]; intros in_run; cbn [app blanks_ok]; [trivial|].
  destruct (Document.is_blank c).
  - intros (Hc & Hrun & H). repeat split; try assumption. now apply IH in H.
  - apply IH.
Qed.

Lemma collapse_blanks_ok (s : jsstring) :
  forall in_run, blanks_ok in_run (Document.collapse_blanks in_run s).
Proof.
  induction s as [|c r IH]; intros in_run; cbn [Document.collapse_blanks];
    [exact I|].
  destruct (Document.is_blank c) eqn:E.
  - destruct in_run; [apply IH|].
    cbn [blanks_ok]. change (Document.is_blank 32) with true. cbv iota.
    repeat split. apply IH.
  - cbn [blanks_ok]. rewrite E. apply IH.
Qed.

Lemma collapse_blanks_fixed (s : jsstring) :
  forall in_run, blanks_ok in_run s -> Document.collapse_blanks in_run s = s.
Proof.
  induction s as [|c r IH]; intros in_run;
    cbn [blanks_ok Document.collapse_blanks]; [reflexivity|].
  destruct (Document.is_blank c).
  - intros (-> & -> & H). now rewrite (IH _ H).
  - intros H. now rewrite (IH _ H).
Qed.

Lemma no_cr_fixed (s : jsstring) :
  no_cr s -> Document.replace_cr (Document.replace_crlf s) = s.
Proof.
  unfold no_cr, Document.replace_cr.
  induction 1 as [|c r Hc _ IH]; [reflexivity|].
  cbn [Document.replace_crlf].
  destruct (N.eqb_spec c 13); [contradiction|]. cbn [map].
  destruct (N.eqb_spec c 13); [contradiction|]. now rewrite IH.
Qed.

(** Every text comes out of [cleanText] clean. *)
Lemma cleanText_clean (text : jsstring) : clean (Document.cleanText text).
Proof.
  unfold Document.cleanText.
  set (a := Document.replace_cr (Document.replace_crlf text)).
  set (b := Document.collapse_newlines 0 a).
  set (c := Document.collapse_blanks false b).
  assert (no_cr c) as Hcr.
  { apply collapse_blanks_Forall; [discriminate|].
    apply collapse_newlines_Forall, replace_cr_no_cr. }
  assert (newlines_ok 0 c) as Hnl.
  { apply collapse_blanks_newlines_ok; [discriminate|].
    apply collapse_newlines_ok. lia. }
  pose proof (collapse_blanks_ok b false) as Hbl. fold c in Hbl.
  pose proof (collapse_blanks_no_tab b false) as Htab. fold c in Htab.
  destruct (trim_split c) as (front & back & Hsplit).
  repeat split.
  - now apply trim_Forall.
  - now apply trim_Forall.
  - rewrite Hsplit in Hnl. apply newlines_ok_suffix in Hnl.
    now apply newlines_ok_prefix in Hnl.
  - rewrite Hsplit in Hbl. apply blanks_ok_suffix in Hbl.
    now apply blanks_ok_prefix in Hbl.
  - apply trim_trimmed.
  - apply trim_trimmed.
Qed.

Lemma clean_fixed (s : jsstring) : clean s -> Document.cleanText s = s.
Proof.
  intros (Hcr & _ & Hnl & Hbl & Htrim). unfold Document.cleanText.
  rewrite (no_cr_fixed s Hcr), (collapse_newlines_fixed s 0%nat Hnl),
    (collapse_blanks_fixed s false Hbl).
  now apply trimmed_fixed.
Qed.

End CleanTextFacts.

(** X23.  What [cleanText] returns holds no carriage return and no tab, no
    run of more than two line feeds, no two blanks in a row, and neither
    starts nor ends with white space; it is never longer than the text. *)
Theorem cleanText_shape (text : jsstring) :
  no_cr (Document.cleanText text) /\
  no_tab (Document.cleanText text) /\
  newlines_ok 0 (Document.cleanText text) /\
  blanks_ok false (Document.cleanText text) /\
  trimmed (Document.cleanText text) /\
  length (Document.cleanText text) <= length text.
Proof.
  destruct (cleanText_clean text) as (H1 & H2 & H3 & H4 & H5).
  repeat split; try assumption; try apply H5.
  unfold Document.cleanText, length. apply Nat2Z.inj_le.
  etransitivity; [apply trim_length|].
  etransitivity; [apply collapse_blanks_length|].
  etransitivity; [apply collapse_newlines_length|].
  unfold Document.replace_cr. rewrite length_map.
  apply (replace_crlf_length_upto (List.length text)). apply le_n.
Qed.

(** X24.  Cleaning a text twice gives what cleaning it once gives. *)
Theorem cleanText_idempotent (text : jsstring) :
  Document.cleanText (Document.cleanText text) = Document.cleanText text.
Proof. apply clean_fixed, cleanText_clean. Qed.

(** ** Word count *)

Section WordFacts.

(** The number of words among the pieces of a split. *)
Let count (pieces : list jsstring) : nat :=
  List.length (filter (fun word => (0 <? length word)%Z) pieces).

Lemma count_cons (piece : jsstring) (pieces : list jsstring) :
  count (piece :: pieces) = (count [piece] + count pieces)%nat.
Proof.
  unfold count. cbn [filter].
  destruct (0 <? length piece)%Z; cbn [List.length]; lia.
Qed.

Lemma count_state (s : jsstring) :
  count (split_ws true [] s) = count (split_ws false [] s).
Proof.
  destruct s as [|c r]; [reflexivity|]. cbn [split_ws].
  destruct (is_space c); [|reflexivity].
  now rewrite (count_cons (rev [])).
Qed.

Lemma count_across_space (sp : char16) (a b : jsstring) :
  is_space sp = true ->
  forall in_sep cur,
    (in_sep = true -> cur = []) ->
    count (split_ws in_sep cur (a ++ sp :: b))
    = (count (split_ws in_sep cur a) + count (split_ws false [] b))%nat.
Proof.
  intros Hsp. induction a as [|c r IH]; intros in_sep cur Hstate;
    cbn [app split_ws].
  - rewrite Hsp. destruct in_sep.
    + rewrite (Hstate eq_refl). now rewrite count_state.
    + now rewrite count_cons, count_state.
  - destruct (is_space c).
    + destruct in_sep.
      * now apply IH.
      * rewrite count_cons, IH by reflexivity.
        rewrite (count_cons _ (split_ws true [] r)).
        apply Nat.add_assoc.
    + apply IH. discriminate.
Qed.

Lemma count_spaces_only (s : jsstring) :
  Forall (fun c => is_space c = true) s -> count (split_ws false [] s) = 0%nat.
Proof.
  induction 1 as [|c r Hc _ IH]; [reflexivity|].
  cbn [split_ws]. rewrite Hc. now rewrite count_cons, count_state, IH.
Qed.

Lemma drop_spaces_dropped (s : jsstring) :
  exists dropped,
    Forall (fun c => is_space c = true) dropped /\
    s = dropped ++ Document.drop_spaces s.
Proof.
  induction s as [|c r (dropped & Hall & IH)]; [now exists []|].
  cbn [Document.drop_spaces]. destruct (is_space c) eqn:E.
  - exists (c :: dropped). split; [now constructor|].
    cbn [app]. now rewrite <- IH.
  - now exists [].
Qed.

Lemma count_leading_spaces (dropped s : jsstring) :
  Forall (fun c => is_space c = true) dropped ->
  count (split_ws false [] (dropped ++ s)) = count (split_ws false [] s).
Proof.
  induction 1 as [|c r Hc _ IH]; [reflexivity|].
  cbn [app split_ws]. rewrite Hc. now rewrite count_cons, count_state, IH.
Qed.

Lemma count_trailing_spaces (s dropped : jsstring) :
  Forall (fun c => is_space c = true) dropped ->
  count (split_ws false [] (s ++ dropped)) = count (split_ws false [] s).
Proof.
  intros Hall. destruct Hall as [|c r Hc Hr]; [now rewrite app_nil_r|].
  rewrite (count_across_space c s r Hc false []) by discriminate.
  rewrite (count_spaces_only r Hr). lia.
Qed.

(** Trimming a text does not change the number of its words. *)
Lemma count_trim (s : jsstring) :
  count (split_ws false [] (Document.trim s)) = count (split_ws false [] s).
Proof.
  unfold Document.trim.
  destruct (drop_spaces_dropped s) as (front & Hfront & Hs).
  destruct (drop_spaces_dropped (rev (Document.drop_spaces s)))
    as (back & Hback & Hrev).
  apply (f_equal (@rev _)) in Hrev.
  rewrite rev_involutive, rev_app_distr in Hrev.
  rewrite Hs at 2. rewrite count_leading_spaces by assumption.
  rewrite Hrev at 2. rewrite count_trailing_spaces; [reflexivity|].
  now apply Forall_rev.
Qed.

Lemma countWords_count (s : jsstring) :
  Document.countWords s = Z.of_nat (count (split_ws false [] s)).
Proof.
  unfold Document.countWords, split_spaces. f_equal. apply count_trim.
Qed.

(** X25.  Words add up across white space: the word count of two texts put
    together with a white space character in between is the sum of their
    word counts. *)
Theorem countWords_across_space (sp : char16) (a b : jsstring) :
  is_space sp = true ->
  Document.countWords (a ++ sp :: b)
  = Document.countWords a + Document.countWords b.
Proof.
  intros Hsp. rewrite !countWords_count.
  rewrite (count_across_space sp a b Hsp false []) by discriminate. lia.
Qed.

(** X26.  The token estimate of the Ollama service is built on the word
    count of the document service: [countTokens(s)] is the ceiling of
    [1.3 * countWords(s) + 0.25 * s.length]; the [trim] of [countWords]
    makes no difference to the number of words. *)
Theorem countTokens_from_countWords (s : jsstring) :
  countTokens s = (26 * Document.countWords s + 5 * length s + 19) / 20.
Proof. rewrite countWords_count. reflexivity. Qed.

End WordFacts.

Lemma countWords_across_space_witness :
  Document.countWords (lit "Hello big" ++ 10%N :: lit " world ")
  = Document.countWords (lit "Hello big") + Document.countWords (lit " world ").
Proof.
  apply (countWords_across_space 10%N (lit "Hello big") (lit " world ")).
  reflexivity.
Defined.

(** ** What a retried call is given, and what the JavaScript service throws *)

Section AttemptOptions.

Context {R : Type}.
Variable cfg : Config.
Variable options : RequestOptions.
Variable cid : jsstring.

Lemma attempt_options_at (n : nat) :
  {| opt_timeout :=
       Some (timeout_or options
               (progressiveTimeout (timeout cfg) (Z.of_nat n + 1))) |}
  = attempt_options cfg options n.
Proof.
  unfold attempt_options, timeout_or, progressiveTimeout.
  replace (Z.of_nat n + 1 - 1) with (Z.of_nat n) by lia. reflexivity.
Qed.

(** The loop looks at the request function at the options of each call
    only. *)
Lemma attempts_ext (f g : nat -> RequestOptions -> RequestError + R) :
  (forall n, f n (attempt_options cfg options n)
             = g n (attempt_options cfg options n)) ->
  forall remaining attempt last w,
    attempt = Z.of_nat (calls w) + 1 ->
    attempts cfg f options cid remaining attempt last w
    = attempts cfg g options cid remaining attempt last w.
Proof.
  intros Hsame.
  induction remaining as [|remaining IH]; intros attempt last w Hattempt;
    [reflexivity|].
  rewrite !attempts_step, Hattempt, attempt_options_at, Hsame.
  destruct (g _ _) as [e|v]; [|reflexivity].
  destruct (_ =? _); [reflexivity|].
  apply IH. cbn [slept invoked calls]. lia.
Qed.

End AttemptOptions.

(** X27.  While 1.5 to the power [k] and its product with the configured
    timeout are exact in double precision
    ([max 1 |timeout| * 3 ^ k < 2 ^ 53]), the call number [k] (from 0) of a
    retried request is made with the timeout the
    caller set, when it set a non-zero one, and otherwise with the
    configured timeout times 1.5 to the power [k]: a request function that
    fails [k] times and then returns the options it was given returns
    exactly those. *)
Theorem retryRequest_progressive_timeout
        (cfg : Config) (options : RequestOptions) (cid : jsstring)
        (e : RequestError) (k : nat) :
  Z.of_nat k < maxRetries cfg ->
  Z.max 1 (Z.abs (timeout cfg)) * 3 ^ Z.of_nat k < 2 ^ 53 ->
  retryRequest cfg
               (fun n given => if (n <? k)%nat then inl e else inr given)
               options cid start
  = (Returned (attempt_options cfg options k),
     {| calls := S k; sleeps := delays 1 k |}).
Proof.
  intros Hk _. unfold retryRequest.
  rewrite (attempts_ext cfg options cid
             (fun n given => if (n <? k)%nat then inl e else inr given)
             (fun n _ => if (n <? k)%nat then inl e
                         else inr (attempt_options cfg options n)))
    by (try reflexivity; intros n; now destruct (n <? k)%nat).
  assert (forall i (o : RequestOptions), (i < k)%nat ->
            exists e0 : RequestError,
              (if (i <? k)%nat then inl e
               else inr (attempt_options cfg options i))
              = inl e0 :> RequestError + RequestOptions) as Hfail.
  { intros i o Hi. exists e.
    destruct (Nat.ltb_spec i k); [reflexivity | lia]. }
  assert (forall o : RequestOptions,
             (if (k <? k)%nat then inl e
              else inr (attempt_options cfg options k))
             = inr (attempt_options cfg options k)
               :> RequestError + RequestOptions) as Hok.
  { intros o. destruct (Nat.ltb_spec k k); [lia | reflexivity]. }
  pose proof (attempts_until_success
                cfg (fun n _ => if (n <? k)%nat then inl e
                                else inr (attempt_options cfg options n))
                options cid k (attempt_options cfg options k)
                Hk Hfail Hok k 0%nat None start) as Hrun.
  replace (Z.to_nat (maxRetries cfg) - 0)%nat with (Z.to_nat (maxRetries cfg))
    in Hrun by lia.
  apply Hrun; [lia | reflexivity].
Qed.

Lemma retryRequest_progressive_timeout_witness :
  retryRequest Inputs.default_config
               (fun n given => if (n <? 2)%nat then inl Inputs.timed_out
                               else inr given)
               {| opt_timeout := None |} (lit "req-1") start
  = (Returned {| opt_timeout := Some (inject_Z 67500) |},
     {| calls := 3; sleeps := [1000; 2000] |}).
Proof.
  apply (retryRequest_progressive_timeout
           Inputs.default_config {| opt_timeout := None |} (lit "req-1")
           Inputs.timed_out 2).
  - reflexivity.
  - reflexivity.
Defined.

Lemma handleError_untyped (e : Thrown) :
  instanceof_AppError e = false ->
  instanceof_AppError (Legacy.handleError e) = false.
Proof.
  destruct e as [r| | | | | | | |]; try discriminate; try reflexivity.
  intros _. cbn [Legacy.handleError].
  destruct (response r) as [[status data_error]|]; [reflexivity|].
  now destruct (request r).
Qed.

Lemma legacy_attempts_throw_untyped {R : Type} (maxRetries : Z)
      (requestFn : nat -> RequestError + R) (n : nat) :
  forall attempt last w e w',
    Legacy.attempts maxRetries requestFn n attempt last w = (Threw e, w') ->
    instanceof_AppError e = false.
Proof.
  induction n as [|n IH]; intros attempt last w e w'.
  - cbn [Legacy.attempts]. intros H. injection H as <- _. now destruct last.
  - rewrite legacy_attempts_step.
    destruct (requestFn _) as [r|v]; [|discriminate].
    destruct (_ =? _); [|apply IH].
    intros H. now injection H as <- _.
Qed.

(** X28.  Whatever the chat completion of the JavaScript service throws is
    an untyped error, never an [AppError]: it carries no status code and no
    correlation id. *)
Theorem legacy_chat_completion_errors_are_untyped
        (maxRetries : Z) env backend params (w w' : World) (e : Thrown) :
  Legacy.generateChatCompletion maxRetries env backend params w
  = (Threw e, w') ->
  instanceof_AppError e = false /\
  statusCode_of e = None /\
  correlationId_of e = None.
Proof.
  assert (forall x, instanceof_AppError x = false ->
                    instanceof_AppError x = false /\ statusCode_of x = None /\
                    correlationId_of x = None) as Hall
    by (intros []; try discriminate; now repeat split).
  unfold Legacy.generateChatCompletion.
  destruct (Legacy.messages params) as [|m l].
  - intros H. injection H as <- _. now apply Hall.
  - unfold Legacy.retryRequest.
    destruct (Legacy.attempts _ _ _ _ _ _) as [[data|e0|] w0] eqn:Hretry.
    + destruct (Legacy.content_length data) as [n|e1|] eqn:Hlen;
        try discriminate.
      intros H. injection H as <- _. apply Hall, handleError_untyped.
      unfold Legacy.content_length in Hlen.
      destruct data as [ | | | | |members]; try discriminate;
        [now injection Hlen as <-|].
      destruct (Json.member _ members) as [[ | | | | |fields]|];
        try discriminate.
      destruct (Json.member _ fields) as [[ | | | | |]|]; discriminate.
    + intros H. injection H as <- _. apply Hall, handleError_untyped.
      now apply legacy_attempts_throw_untyped in Hretry.
    + discriminate.
Qed.

Lemma legacy_chat_completion_errors_are_untyped_witness :
  instanceof_AppError
    (PlainError (lit "Ollama API Error (400): invalid request")) = false /\
  statusCode_of
    (PlainError (lit "Ollama API Error (400): invalid request")) = None /\
  correlationId_of
    (PlainError (lit "Ollama API Error (400): invalid request")) = None.
Proof.
  apply (legacy_chat_completion_errors_are_untyped
           3 Service.no_env (fun _ _ => inl Inputs.bad_request)
           (Legacy.mkParams None Inputs.hi None None None) start
           {| calls := 3; sleeps := [1000; 2000] |}).
  vm_compute. reflexivity.
Defined.
